(** * mt-meld: a shallow embedding of [mt_meld.py] and its specification

    The program reads a source text, an optional reference translation and
    any number of hypothesis files line by line, normalises every line
    through [process_line] and prints one block per sentence.

    Text is modelled by [string]; a character is a code point below 256,
    which is how Python's [str] behaves on Latin-1 text.  Dictionaries are
    [gmap string string], file objects are the list of lines that remain to
    be read, and standard output is the text written so far. *)

From Stdlib Require Import Ascii ZArith Lia.
From stdpp Require Import base option list gmap strings pretty.

Open Scope Z_scope.

(** ** Python built-ins on [str] *)

Module Str.

(** [str.isspace] on one character: the code points that [str.split()]
    and [str.rstrip()] treat as white space (TAB..CR, FS..US, SPACE, NEL
    and NBSP). *)
Definition isspace (c : ascii) : bool :=
  let n := N_of_ascii c in
  ((9 <=? n) && (n <=? 13) || (28 <=? n) && (n <=? 32)
   || (n =? 133) || (n =? 160))%N.

(** [str.lower] on one character: A..Z and the Latin-1 capitals
    (U+00C0..U+00DE without the multiplication sign) move up by 32. *)
Definition lower_char (c : ascii) : ascii :=
  let n := N_of_ascii c in
  if ((65 <=? n) && (n <=? 90)
      || (192 <=? n) && (n <=? 222) && negb (n =? 215))%N
  then ascii_of_N (n + 32) else c.

Fixpoint lower (s : string) : string :=
  match s with
  | EmptyString => EmptyString
  | String c s' => String (lower_char c) (lower s')
  end.

(** [s.rstrip()]: drop the trailing run of white space. *)
Fixpoint rstrip (s : string) : string :=
  match s with
  | EmptyString => EmptyString
  | String c s' =>
      match rstrip s' with
      | EmptyString => if isspace c then EmptyString else String c EmptyString
      | r => String c r
      end
  end.

(** The token under construction is emitted when it is not empty. *)
Definition flush (cur : string) : list string :=
  match cur with
  | EmptyString => []
  | _ => [cur]
  end.

(** [s.split()]: scan left to right, [cur] holds the characters of the
    token being read; white space ends it. *)
Fixpoint split_go (cur : string) (s : string) : list string :=
  match s with
  | EmptyString => flush cur
  | String c s' =>
      if isspace c then flush cur ++ split_go EmptyString s'
      else split_go (cur +:+ String c EmptyString) s'
  end.

Definition split (s : string) : list string := split_go EmptyString s.

(** [sep.join(l)] *)
Fixpoint join (sep : string) (l : list string) : string :=
  match l with
  | [] => EmptyString
  | [w] => w
  | w :: ws => w +:+ sep +:+ join sep ws
  end.

(** Truth value of a [str] and of an optional [str] ([None] is false). *)
Definition truthy (s : string) : bool :=
  match s with
  | EmptyString => false
  | _ => true
  end.

Definition truthy_opt (o : option string) : bool :=
  match o with
  | Some s => truthy s
  | None => false
  end.

(** [pat in s] for a literal [pat]. *)
Fixpoint occurs (pat s : string) : bool :=
  String.prefix pat s ||
  match s with
  | EmptyString => false
  | String _ s' => occurs pat s'
  end.

End Str.

(** ** [re.sub] for a literal pattern *)

Module Re.

(** [re.sub(pat, repl, s)] where [pat] is a non-empty literal without
    metacharacters (the program uses ["@@ "] and ["&apos;"]): the matches
    are found from left to right and do not overlap.  [skip] counts the
    characters of the current match that are still to be consumed. *)
Fixpoint sub_go (pat repl : string) (skip : nat) (s : string) : string :=
  match s with
  | EmptyString => EmptyString
  | String c s' =>
      match skip with
      | S k => sub_go pat repl k s'
      | O =>
          if String.prefix pat s
          then repl +:+ sub_go pat repl (Nat.pred (String.length pat)) s'
          else String c (sub_go pat repl O s')
      end
  end.

Definition sub (pat repl s : string) : string := sub_go pat repl O s.

End Re.

(** ** Exceptions, results and output *)

Inductive exn : Type :=
| TypeError
| OSError
| IndexError
| KeyError
| UnboundLocalError
| SystemExit (code : Z).

(** A computation that may raise. *)
Definition result (A : Type) : Type := exn + A.

Definition result_bind {A B} (m : result A) (k : A -> result B) : result B :=
  match m with
  | inl e => inl e
  | inr a => k a
  end.

(** A computation that prints and may raise: the text written to standard
    output, and how it ended. *)
Record io (A : Type) : Type := Io { stdout : string; outcome : result A }.
Arguments Io {A} _ _.
Arguments stdout {A} _.
Arguments outcome {A} _.

Definition io_ret {A} (a : A) : io A := Io EmptyString (inr a).

Definition io_bind {A B} (m : io A) (k : A -> io B) : io B :=
  match outcome m with
  | inl e => Io (stdout m) (inl e)
  | inr a => Io (stdout m +:+ stdout (k a)) (outcome (k a))
  end.

Definition raise {A} (e : exn) : io A := Io EmptyString (inl e).

(** [exit(code)] *)
Definition exit {A} (code : Z) : io A := raise (SystemExit code).

(** A raising computation run where output is possible. *)
Definition lift {A} (m : result A) : io A := Io EmptyString m.

(** The line feed that [print] appends. *)
Definition nl : string := String "010" EmptyString.

(** [print(s, end='')] and [print(s)] *)
Definition write (s : string) : io unit := Io s (inr tt).
Definition print (s : string) : io unit := write (s +:+ nl).

Global Instance io_mret : MRet io := @io_ret.
Global Instance io_mbind : MBind io := fun A B k m => io_bind m k.
Global Instance result_mret : MRet result := fun A a => inr a.
Global Instance result_mbind : MBind result := fun A B k m => result_bind m k.

(** Reading a local variable that may not have been assigned. *)
Definition local {A} (v : option A) : io A :=
  match v with
  | Some a => io_ret a
  | None => raise UnboundLocalError
  end.

(** ** Files *)

(** The file system maps a path to the lines of the file, each as the
    iterator of a text file yields it (terminator included). *)
Abbreviation filesystem := (gmap string (list string)).

(** An open file: the lines not read yet. *)
Abbreviation file := (list string).

(** [os.path.isfile(path)] *)
Definition isfile (fs : filesystem) (path : string) : bool :=
  bool_decide (is_Some (fs !! path)).

(** [open(path)]: a path that is [None] is a [TypeError], a missing file an
    [OSError]. *)
Definition open (fs : filesystem) (path : option string) : result file :=
  match path with
  | None => inl TypeError
  | Some p =>
      match fs !! p with
      | Some lines => inr lines
      | None => inl OSError
      end
  end.

(** [f.readline()]: the next line, or the empty string at the end of file. *)
Definition readline (f : file) : string * file :=
  match f with
  | [] => (EmptyString, [])
  | l :: f' => (l, f')
  end.

(** ** Command line *)

(** The options found on the command line; [None] (or [false] for a flag)
    when the option is not given. *)
Module Cli.
Record t : Type := Make {
  src : option string;
  ref : option string;
  hyps : option (list string);
  del_bpe : bool;
  lc : bool;
  truecase : option string;
  detok : option string;
  head : option Z;
  google : option string
}.
End Cli.

(** The namespace that [parser.parse_args()] returns. *)
Module Args.
Record t : Type := Make {
  src : string;
  ref : option string;
  hyps : list string;
  del_bpe : bool;
  lc : bool;
  truecase : option string;
  detok : string;
  head : Z;
  google : option string
}.
End Args.

(** [sys.maxsize] of a 64-bit interpreter. *)
Definition maxsize : Z := 2 ^ 63 - 1.

(** The defaults of the [add_argument] declarations of [main]. *)
Definition parse_args (cli : Cli.t) : Args.t :=
  {| Args.src := default EmptyString (Cli.src cli);
     Args.ref := Cli.ref cli;
     Args.hyps := default [] (Cli.hyps cli);
     Args.del_bpe := Cli.del_bpe cli;
     Args.lc := Cli.lc cli;
     Args.truecase := Cli.truecase cli;
     Args.detok := default "en" (Cli.detok cli);
     Args.head := default maxsize (Cli.head cli);
     Args.google := Cli.google cli |}.

(** ** Optional packages *)

(** A detokenizer object: [detok.detokenize(tokens, return_str=True)]. *)
Abbreviation detokenizer := (list string -> string).

(** What [from nltk.tokenize.moses import MosesDetokenizer] followed by
    [MosesDetokenizer(lang=...)] does: [ImportError], [LookupError], or a
    detokenizer for the language. *)
Inductive nltk_install : Type :=
| NltkMissing
| NltkNoData
| NltkReady (MosesDetokenizer : string -> detokenizer).

(** The packages of the interpreter: [mtranslate.translate(text, lang)] when
    the package is installed, and the state of NLTK. *)
Record packages : Type := Packages {
  mtranslate : option (string -> string -> string);
  nltk : nltk_install
}.

(** ** The program *)

(** [parse_truecase_model], the loop over the lines of the model file. *)
Fixpoint parse_truecase_lines (tc_file : file) (truecase_dict : gmap string string)
  : result (gmap string string) :=
  match tc_file with
  | [] => inr truecase_dict
  | line :: tc_file' =>
      let split_line := Str.split line in
      match split_line !! 0%nat with
      | None => inl IndexError
      | Some first => parse_truecase_lines tc_file' (<[Str.lower first := first]> truecase_dict)
      end
  end.

Definition parse_truecase_model (fs : filesystem) (truecase_model_file : option string)
  : result (gmap string string) :=
  tc_file ← open fs truecase_model_file;
  parse_truecase_lines tc_file ∅.

(** [truecase_line], the loop [for i in range(len(tokens))]: [tokens] is
    updated in place. *)
Fixpoint truecase_tokens (truecase_dict : gmap string string) (range : list nat)
    (tokens : list string) : result (list string) :=
  match range with
  | [] => inr tokens
  | i :: range' =>
      match tokens !! i with
      | None => inl IndexError
      | Some word =>
          if bool_decide (is_Some (truecase_dict !! Str.lower word))
          then match truecase_dict !! Str.lower word with
               | None => inl KeyError
               | Some cased => truecase_tokens truecase_dict range' (<[i := cased]> tokens)
               end
          else truecase_tokens truecase_dict range' tokens
      end
  end.

Definition truecase_line (line : string) (truecase_dict : gmap string string)
  : result string :=
  let tokens := Str.split line in
  tokens ← truecase_tokens truecase_dict (seq 0 (length tokens)) tokens;
  mret (Str.join " " tokens).

Definition print_hyp (hyp_num : Z) (ref_line hyp_line : string) : io unit :=
  write ("MT" +:+ pretty hyp_num +:+ ": ");;
  (if bool_decide (ref_line = hyp_line) then write ":-) " else write "    ");;
  print hyp_line.

Definition process_line (cmd_args : Args.t) (line : string) (re_bpe : string)
    (detok : detokenizer) (truecase_dict : gmap string string) : result string :=
  let line := Str.rstrip line in
  line ← (if Args.lc cmd_args then mret (Str.lower line)
          else if Str.truthy_opt (Args.truecase cmd_args)
               then truecase_line line truecase_dict
               else mret line);
  let line := if Args.del_bpe cmd_args then Re.sub re_bpe "" line else line in
  let line := if Str.truthy (Args.detok cmd_args) then detok (Str.split line) else line in
  let line := Re.sub "&apos;" "'" line in
  mret line.

(** A call [process_line(cmd_args, line, re_bpe, detok, truecase_dict)] made
    inside [process_lines], where [detok] is a local variable that is only
    assigned when the detokenizer was set up. *)
Definition call_process_line (cmd_args : Args.t) (line : string) (re_bpe : string)
    (detok : option detokenizer) (truecase_dict : gmap string string) : io string :=
  detok ← local detok;
  lift (process_line cmd_args line re_bpe detok truecase_dict).

(** [process_lines], the loop [for hyp in hyps]; returns [hyp_num] and the
    files as they are after the reads. *)
Fixpoint process_lines_hyps (cmd_args : Args.t) (re_bpe : string)
    (detok : option detokenizer) (truecase_dict : gmap string string)
    (ref_line : string) (hyps : list file) (hyp_num : Z) : io (Z * list file) :=
  match hyps with
  | [] => mret (hyp_num, [])
  | hyp :: hyps' =>
      let '(hyp_line, hyp) := readline hyp in
      hyp_line ← call_process_line cmd_args hyp_line re_bpe detok truecase_dict;
      print_hyp hyp_num ref_line hyp_line;;
      '(hyp_num, hyps') ← process_lines_hyps cmd_args re_bpe detok truecase_dict
                             ref_line hyps' (hyp_num + 1);
      mret (hyp_num, hyp :: hyps')
  end.

(** [process_lines], the loop [for src_line in src]. *)
Fixpoint process_lines_loop (cmd_args : Args.t) (re_bpe : string)
    (mtranslate : option (string -> string -> string))
    (detok : option detokenizer) (truecase_dict : gmap string string)
    (src : file) (line_num : Z) (ref : option file) (hyps : list file) : io unit :=
  match src with
  | [] => mret tt
  | src_line :: src' =>
      let line_num := line_num + 1 in
      if bool_decide (line_num > Args.head cmd_args) then mret tt
      else
        src_line ← call_process_line cmd_args src_line re_bpe detok truecase_dict;
        print ("Src:     " +:+ src_line);;
        '(ref_line, ref) ←
          match ref with
          | None => mret (EmptyString, None)
          | Some ref =>
              let '(ref_line, ref) := readline ref in
              ref_line ← call_process_line cmd_args ref_line re_bpe detok truecase_dict;
              print ("Ref:    " +:+ " " +:+ ref_line);;
              mret (ref_line, Some ref)
          end;
        '(hyp_num, hyps) ← process_lines_hyps cmd_args re_bpe detok truecase_dict
                              ref_line hyps 1;
        match Args.google cmd_args with
        | Some lang =>
            if Str.truthy lang then
              translate ← local mtranslate;
              let google_line := translate src_line lang in
              google_line ← call_process_line cmd_args google_line re_bpe detok ∅;
              print_hyp hyp_num ref_line google_line
            else mret tt
        | None => mret tt
        end;;
        print "";;
        process_lines_loop cmd_args re_bpe mtranslate detok truecase_dict
          src' line_num ref hyps
  end.

Definition process_lines (pkgs : packages) (cmd_args : Args.t) (src : file)
    (ref : option file) (hyps : list file) (truecase_dict : gmap string string)
  : io unit :=
  let re_bpe := "@@ " in
  mtranslate ←
    (if Str.truthy_opt (Args.google cmd_args) then
       match mtranslate pkgs with
       | Some translate => mret (Some translate)
       | None =>
           print "Error: Install package 'mtranslate': pip install --user -U mtranslate";;
           exit 2
       end
     else mret None);
  detok ←
    (if Str.truthy (Args.detok cmd_args) then
       match nltk pkgs with
       | NltkReady MosesDetokenizer => mret (Some (MosesDetokenizer (Args.detok cmd_args)))
       | NltkMissing =>
           print "Error: Install package 'nltk': pip install --user -U nltk";;
           exit 3
       | NltkNoData =>
           print ("Error: Install NLTK data package 'perluniprops': "
                  +:+ "                   import nltk; nltk.download('perluniprops')");;
           exit 4
       end
     else mret None);
  process_lines_loop cmd_args re_bpe mtranslate detok truecase_dict src 0 ref hyps.

(** [main], the loop that opens the hypothesis files. *)
Fixpoint open_hyps (fs : filesystem) (hyp_files : list string) (hyps : list file)
  : io (list file) :=
  match hyp_files with
  | [] => mret hyps
  | hyp_file :: hyp_files' =>
      match open fs (Some hyp_file) with
      | inr hyp => open_hyps fs hyp_files' (hyps ++ [hyp])
      | inl OSError =>
          print "Error: Could not open hyp_file";;
          open_hyps fs hyp_files' hyps
      | inl e => raise e
      end
  end.

Definition main (fs : filesystem) (pkgs : packages) (cli : Cli.t) : io unit :=
  let cmd_args := parse_args cli in
  (if isfile fs (Args.src cmd_args) then mret tt
   else print "Error: You need to supply a source file.  Add --src <FILE>";;
        exit 1);;
  truecase_dict ← lift (parse_truecase_model fs (Args.truecase cmd_args));
  src ← lift (open fs (Some (Args.src cmd_args)));
  ref ← match Args.ref cmd_args with
        | Some path => ref ← lift (open fs (Some path)); mret (Some ref)
        | None => mret None
        end;
  hyps ← open_hyps fs (Args.hyps cmd_args) [];
  process_lines pkgs cmd_args src ref hyps truecase_dict.

(** ** Vocabulary of the statements *)

(** Every character of [s] satisfies [P]. *)
Fixpoint all_chars (P : ascii -> bool) (s : string) : bool :=
  match s with
  | EmptyString => true
  | String c s' => P c && all_chars P s'
  end.

(** A line with no character other than white space. *)
Definition blank (s : string) : bool := all_chars Str.isspace s.

(** A token: not empty and free of white space. *)
Definition is_token (w : string) : Prop :=
  w ≠ EmptyString ∧ all_chars (λ c, negb (Str.isspace c)) w = true.

(** The first token of every line that has one. *)
Definition first_tokens (lines : list string) : list string :=
  omap (λ line, head (Str.split line)) lines.

(** The value of a computation that does not raise. *)
Definition value_or {A} (d : A) (m : result A) : A :=
  match m with
  | inr a => a
  | inl _ => d
  end.

(** Concatenation of a list of texts. *)
Definition cat (l : list string) : string := foldr String.append EmptyString l.

(** The truecase substitution of one token: the mapped value when the
    lowercased token is a key, the token itself otherwise. *)
Definition substitute (truecase_dict : gmap string string) (word : string) : string :=
  default word (truecase_dict !! Str.lower word).

(** The line as the steps before the detokenizer leave it: trailing white
    space stripped, case normalised, BPE markers removed. *)
Definition before_detok (cmd_args : Args.t) (re_bpe : string)
    (truecase_dict : gmap string string) (line : string) : string :=
  let line := Str.rstrip line in
  let line :=
    if Args.lc cmd_args then Str.lower line
    else if Str.truthy_opt (Args.truecase cmd_args)
         then Str.join " " (substitute truecase_dict <$> Str.split line)
         else line in
  if Args.del_bpe cmd_args then Re.sub re_bpe "" line else line.

(** [normalize] of the specification: the chain of [process_line] as a total
    function. *)
Definition normalize (cmd_args : Args.t) (re_bpe : string) (detok : detokenizer)
    (truecase_dict : gmap string string) (line : string) : string :=
  let line := before_detok cmd_args re_bpe truecase_dict line in
  let line := if Str.truthy (Args.detok cmd_args) then detok (Str.split line) else line in
  Re.sub "&apos;" "'" line.

(** The line that iteration [i] (counted from 0) reads from a file: its
    line [i], or the empty string when the file has fewer lines. *)
Definition line_at (f : file) (i : nat) : string := default EmptyString (f !! i).

(** Two files from which every iteration reads the same line: they differ
    at most by empty lines at the end. *)
Definition same_reads (f g : file) : Prop := ∀ i, line_at f i = line_at g i.

(** What the presenter prints for one hypothesis. *)
Definition hyp_text (hyp_num : Z) (ref_line hyp_line : string) : string :=
  "MT" +:+ pretty hyp_num +:+ ": "
  +:+ (if bool_decide (ref_line = hyp_line) then ":-) " else "    ")
  +:+ hyp_line +:+ nl.

(** The hypothesis lines of group [i], numbered from [hyp_num]. *)
Fixpoint hyps_text (norm : string -> string) (ref_line : string) (i : nat)
    (hyps : list file) (hyp_num : Z) : string :=
  match hyps with
  | [] => EmptyString
  | hyp :: hyps' =>
      hyp_text hyp_num ref_line (norm (line_at hyp i))
      +:+ hyps_text norm ref_line i hyps' (hyp_num + 1)
  end.

(** The block printed for group [i]. *)
Definition group_text (cmd_args : Args.t) (translate : string -> string -> string)
    (detok : detokenizer) (truecase_dict : gmap string string)
    (src : file) (ref : option file) (hyps : list file) (i : nat) : string :=
  let norm := normalize cmd_args "@@ " detok truecase_dict in
  let src_line := norm (line_at src i) in
  let ref_line :=
    match ref with
    | Some ref => norm (line_at ref i)
    | None => EmptyString
    end in
  "Src:     " +:+ src_line +:+ nl
  +:+ match ref with
      | Some _ => "Ref:     " +:+ ref_line +:+ nl
      | None => EmptyString
      end
  +:+ hyps_text norm ref_line i hyps 1
  +:+ match Args.google cmd_args with
      | Some lang =>
          if Str.truthy lang
          then hyp_text (1 + Z.of_nat (length hyps)) ref_line
                 (normalize cmd_args "@@ " detok ∅ (translate src_line lang))
          else EmptyString
      | None => EmptyString
      end
  +:+ nl.

(** The number of groups of a run: the lines of the source, capped by
    [--head]. *)
Definition group_count (cmd_args : Args.t) (src : file) : nat :=
  Z.to_nat (Z.min (Z.of_nat (length src)) (Args.head cmd_args)).

(** The last character of a non-empty text is not white space. *)
Fixpoint rstripped (s : string) : bool :=
  match s with
  | EmptyString => true
  | String c s' =>
      match s' with
      | EmptyString => negb (Str.isspace c)
      | String _ _ => rstripped s'
      end
  end.

(** The namespace with another value of [--truecase]. *)
Definition with_truecase (truecase : option string) (cmd_args : Args.t) : Args.t :=
  {| Args.src := Args.src cmd_args; Args.ref := Args.ref cmd_args;
     Args.hyps := Args.hyps cmd_args; Args.del_bpe := Args.del_bpe cmd_args;
     Args.lc := Args.lc cmd_args; Args.truecase := truecase;
     Args.detok := Args.detok cmd_args; Args.head := Args.head cmd_args;
     Args.google := Args.google cmd_args |}.

(** ** Sample data *)

Module Sample.

(** A detokenizer that puts one space between the tokens. *)
Definition spaced : detokenizer := Str.join " ".


Definition pkgs : packages :=
  {| mtranslate := None; nltk := NltkReady (λ _, spaced) |}.

Definition model : file := ["NATO foo" +:+ nl; "nato bar" +:+ nl].

Definition fs : filesystem :=
  {[ "src.txt" := ["ein Haus" +:+ nl; "zwei" +:+ nl; "drei" +:+ nl];
     "ref.txt" := ["a house" +:+ nl];
     "hyp.txt" := ["a house" +:+ nl; "two" +:+ nl];
     "model.txt" := model;
     "holes.txt" := ["NATO foo" +:+ nl; "  " +:+ nl; "nato bar" +:+ nl] ]}.

(** [mt_meld.py --src src.txt --hyps hyp.txt] *)
Definition cli : Cli.t :=
  {| Cli.src := Some "src.txt"; Cli.ref := None; Cli.hyps := Some ["hyp.txt"];
     Cli.del_bpe := false; Cli.lc := false; Cli.truecase := None;
     Cli.detok := None; Cli.head := None; Cli.google := None |}.


(** The namespace of [--src src.txt --hyps hyp.txt --truecase model.txt]. *)
Definition args : Args.t :=
  {| Args.src := "src.txt"; Args.ref := None; Args.hyps := ["hyp.txt"];
     Args.del_bpe := false; Args.lc := false; Args.truecase := Some "model.txt";
     Args.detok := "en"; Args.head := maxsize; Args.google := None |}.

(** Lowercasing and truecasing both requested. *)
Definition args_lc : Args.t :=
  {| Args.src := "src.txt"; Args.ref := None; Args.hyps := [];
     Args.del_bpe := false; Args.lc := true; Args.truecase := Some "model.txt";
     Args.detok := "en"; Args.head := maxsize; Args.google := None |}.

(** No detokenizer, no translation; only [del_bpe] is set. *)
Definition args_bpe : Args.t :=
  {| Args.src := "src.txt"; Args.ref := None; Args.hyps := [];
     Args.del_bpe := true; Args.lc := false; Args.truecase := None;
     Args.detok := ""; Args.head := maxsize; Args.google := None |}.

(** No detokenizer, no translation; only the truecaser is set. *)
Definition args_tc : Args.t :=
  {| Args.src := "src.txt"; Args.ref := None; Args.hyps := [];
     Args.del_bpe := false; Args.lc := false; Args.truecase := Some "model.txt";
     Args.detok := ""; Args.head := maxsize; Args.google := None |}.

(** No option set but [--lc]. *)
Definition args_plain : Args.t :=
  {| Args.src := "src.txt"; Args.ref := None; Args.hyps := [];
     Args.del_bpe := false; Args.lc := true; Args.truecase := None;
     Args.detok := ""; Args.head := maxsize; Args.google := None |}.

End Sample.

(** ** Vocabulary of the further properties *)

(** What every mapping built by the loader satisfies: a key is the
    lowercased form of its value, and the value is a token. *)
Definition loaded_model (d : gmap string string) : Prop :=
  ∀ k v, d !! k = Some v → Str.lower v = k ∧ is_token v.

(** The line that [main] prints for a hypothesis file it cannot open. *)
Definition hyp_error : string := "Error: Could not open hyp_file" +:+ nl.

(** More sample data. *)
Module Sample2.

(** A namespace with [--del_bpe] alone and no detokenizer. *)
Definition args_bpe : Args.t :=
  {| Args.src := "src.txt"; Args.ref := None; Args.hyps := [];
     Args.del_bpe := true; Args.lc := false; Args.truecase := None;
     Args.detok := ""; Args.head := maxsize; Args.google := None |}.

(** [--lc --del_bpe], no detokenizer. *)
Definition args_lc : Args.t :=
  {| Args.src := "src.txt"; Args.ref := None; Args.hyps := [];
     Args.del_bpe := true; Args.lc := true; Args.truecase := None;
     Args.detok := ""; Args.head := maxsize; Args.google := None |}.

(** [--truecase model.txt], detokenizer for "en". *)
Definition args_tc : Args.t :=
  {| Args.src := "src.txt"; Args.ref := None; Args.hyps := [];
     Args.del_bpe := false; Args.lc := false; Args.truecase := Some "model.txt";
     Args.detok := "en"; Args.head := maxsize; Args.google := None |}.

(** [mt_meld.py --src src.txt --ref ref.txt --hyps hyp.txt nowhere.txt
    --truecase model.txt] *)
Definition cli : Cli.t :=
  {| Cli.src := Some "src.txt"; Cli.ref := Some "ref.txt";
     Cli.hyps := Some ["hyp.txt"; "nowhere.txt"];
     Cli.del_bpe := false; Cli.lc := false; Cli.truecase := Some "model.txt";
     Cli.detok := None; Cli.head := None; Cli.google := None |}.




End Sample2.

(** * Properties of the built-ins *)

Section StrFacts.

Lemma app_cons (c : ascii) (s1 s2 : string) :
  String c s1 +:+ s2 = String c (s1 +:+ s2).
Proof. done. Qed.

Lemma app_nil_r (s : string) : s +:+ "" = s.
Proof. induction s as [|c s IH]; [done | by rewrite app_cons, IH]. Qed.

Lemma app_assoc (s1 s2 s3 : string) : (s1 +:+ s2) +:+ s3 = s1 +:+ s2 +:+ s3.
Proof. induction s1 as [|c s1 IH]; [done | by rewrite !app_cons, IH]. Qed.

Lemma prefix_app (p s : string) : String.prefix p (p +:+ s) = true.
Proof.
  induction p as [|c p IH]; [by destruct s|].
  rewrite app_cons. cbn [String.prefix].
  destruct (ascii_dec c c); [done | congruence].
Qed.

Lemma prefix_inv (p s : string) :
  String.prefix p s = true → ∃ r, s = p +:+ r.
Proof.
  revert s. induction p as [|c p IH]; intros s H.
  - by exists s.
  - destruct s as [|b s]; simpl in H; [done|].
    destruct (ascii_dec c b) as [->|]; [|done].
    destruct (IH _ H) as [r ->]. by exists r.
Qed.

Lemma prefix_cons (a b : ascii) (p s : string) :
  String.prefix (String a p) (String b s) = true ↔ a = b ∧ String.prefix p s = true.
Proof.
  cbn [String.prefix]. destruct (ascii_dec a b) as [Hab|Hab].
  - split; [by intros H | by intros [_ H]].
  - split; [done | by intros [H _]].
Qed.

Lemma isspace_lower_char (c : ascii) :
  Str.isspace (Str.lower_char c) = Str.isspace c.
Proof. by destruct c as [[] [] [] [] [] [] [] []]. Qed.

Lemma lower_char_idem (c : ascii) :
  Str.lower_char (Str.lower_char c) = Str.lower_char c.
Proof. by destruct c as [[] [] [] [] [] [] [] []]. Qed.

Lemma lower_idem (s : string) : Str.lower (Str.lower s) = Str.lower s.
Proof.
  induction s as [|c s IH]; [done|].
  cbn [Str.lower]. by rewrite lower_char_idem, IH.
Qed.

Lemma lower_app (s1 s2 : string) :
  Str.lower (s1 +:+ s2) = Str.lower s1 +:+ Str.lower s2.
Proof.
  induction s1 as [|c s1 IH]; [done|].
  rewrite app_cons. cbn [Str.lower]. by rewrite IH.
Qed.

(** *** [split] *)

Lemma split_go_space cur c s :
  Str.isspace c = true →
  Str.split_go cur (String c s) = Str.flush cur ++ Str.split s.
Proof. intros H. simpl. by rewrite H. Qed.

Lemma split_go_app_space cur s1 c s2 :
  Str.isspace c = true →
  Str.split_go cur (s1 +:+ String c s2) = Str.split_go cur s1 ++ Str.split s2.
Proof.
  intros Hc. revert cur.
  induction s1 as [|a s1 IH]; intros cur; simpl.
  - by rewrite Hc.
  - destruct (Str.isspace a); [|apply IH].
    by rewrite (IH ""), (assoc_L (++)).
Qed.

(** White space separates: the tokens of [s1 c s2] are those of [s1]
    followed by those of [s2]. *)
Lemma split_app_space s1 c s2 :
  Str.isspace c = true →
  Str.split (s1 +:+ String c s2) = Str.split s1 ++ Str.split s2.
Proof. apply split_go_app_space. Qed.

Lemma split_go_word cur w :
  all_chars (λ c, negb (Str.isspace c)) w = true →
  Str.split_go cur w = Str.flush (cur +:+ w).
Proof.
  revert cur. induction w as [|c w IH]; intros cur H.
  - by rewrite app_nil_r.
  - cbn [all_chars] in H. apply andb_prop in H as [Hc Hw].
    cbn [Str.split_go]. destruct (Str.isspace c); [done|].
    rewrite IH by done. by rewrite app_assoc.
Qed.

(** A token is split into itself. *)
Lemma split_token w : is_token w → Str.split w = [w].
Proof.
  intros [Hne Hw]. unfold Str.split. rewrite split_go_word by done.
  simpl. by destruct w.
Qed.

Lemma all_chars_app P s1 s2 :
  all_chars P (s1 +:+ s2) = all_chars P s1 && all_chars P s2.
Proof.
  induction s1 as [|c s1 IH]; simpl; [done|].
  by rewrite IH, andb_assoc.
Qed.

Lemma split_go_tokens cur s :
  all_chars (λ c, negb (Str.isspace c)) cur = true →
  Forall is_token (Str.split_go cur s).
Proof.
  revert cur. induction s as [|c s IH]; intros cur Hcur; simpl.
  - destruct cur; [constructor|]. by repeat constructor.
  - destruct (Str.isspace c) eqn:Hc.
    + apply Forall_app. split; [|by apply IH].
      destruct cur; [constructor|]. by repeat constructor.
    + apply IH. rewrite all_chars_app, Hcur. simpl. by rewrite Hc.
Qed.

(** Every element of [split] is a token. *)
Lemma split_tokens s : Forall is_token (Str.split s).
Proof. by apply split_go_tokens. Qed.

(** Joining tokens by one space and splitting again gives them back. *)
Lemma split_join ws :
  Forall is_token ws → Str.split (Str.join " " ws) = ws.
Proof.
  induction 1 as [|w ws Hw Hws IH]; [done|].
  destruct ws as [|w' ws]; [by apply split_token|].
  change (Str.join " " (w :: w' :: ws))
    with (w +:+ String " " (Str.join " " (w' :: ws))).
  rewrite split_app_space by done.
  by rewrite split_token, IH.
Qed.

Lemma split_go_nil cur s :
  Str.split_go cur s = [] ↔ cur = "" ∧ blank s = true.
Proof.
  revert cur. induction s as [|c s IH]; intros cur.
  - cbn. destruct cur; split; (done || by intros [? _]).
  - unfold blank in *. cbn [Str.split_go all_chars].
    destruct (Str.isspace c) eqn:Hc; cbn [andb].
    + rewrite app_nil, IH. destruct cur; cbn [Str.flush].
      * split; [by intros [_ [_ H]] | by intros [_ H]].
      * split; [by intros [H _] | by intros [H _]].
    + rewrite IH. split; [|by intros [_ H]].
      intros [H _]. by destruct cur.
Qed.

(** A line has no token exactly when it is blank. *)
Lemma split_nil s : Str.split s = [] ↔ blank s = true.
Proof.
  unfold Str.split. rewrite split_go_nil.
  split; [by intros [_ H] | by intros H].
Qed.

End StrFacts.

(** * Properties of [re.sub] with a literal pattern *)

Section ReFacts.

(** The pattern is [String a p]: it is not empty. *)
Variables (a : ascii) (p : string) (repl : string).
Let pat : string := String a p.

Lemma sub_go_skip x s :
  Re.sub_go pat repl (String.length x) (x +:+ s) = Re.sub pat repl s.
Proof. induction x as [|c x IH]; [done | apply IH]. Qed.

(** A match at the head is replaced and the scan resumes behind it. *)
Lemma sub_match s : Re.sub pat repl (pat +:+ s) = repl +:+ Re.sub pat repl s.
Proof.
  unfold Re.sub, pat. rewrite app_cons. cbn [Re.sub_go].
  rewrite <- app_cons, prefix_app. cbn [String.length Nat.pred].
  f_equal. apply sub_go_skip.
Qed.

(** Without a match at the head the character is kept. *)
Lemma sub_nomatch c s :
  String.prefix pat (String c s) = false →
  Re.sub pat repl (String c s) = String c (Re.sub pat repl s).
Proof. intros H. unfold Re.sub. cbn [Re.sub_go]. by rewrite H. Qed.

(** Induction along the scan. *)
Lemma sub_ind (P : string → Prop) :
  P "" →
  (∀ s, P s → P (pat +:+ s)) →
  (∀ c s, String.prefix pat (String c s) = false → P s → P (String c s)) →
  ∀ s, P s.
Proof.
  intros Hnil Hmatch Hstep s.
  assert (∀ x y : string, String.length (x +:+ y)
            = (String.length x + String.length y)%nat) as Hlen.
  { intros x y. induction x as [|c x IHx]; [done|].
    rewrite app_cons. cbn [String.length]. by rewrite IHx. }
  remember (String.length s) as n eqn:Hn. revert s Hn.
  induction (lt_wf n) as [n _ IH]. intros s ->.
  destruct s as [|c s]; [done|].
  destruct (String.prefix pat (String c s)) eqn:Hp.
  - destruct (prefix_inv _ _ Hp) as [t Ht]. rewrite Ht. apply Hmatch.
    apply (IH (String.length t)); [|done].
    rewrite Ht, Hlen. unfold pat. cbn [String.length]. lia.
  - apply Hstep; [done|]. apply (IH (String.length s)); [|done].
    cbn [String.length]. lia.
Qed.

Lemma occurs_cons c s :
  Str.occurs pat (String c s) = String.prefix pat (String c s) || Str.occurs pat s.
Proof. done. Qed.

(** Where the pattern does not occur nothing changes. *)
Lemma sub_absent s : Str.occurs pat s = false → Re.sub pat repl s = s.
Proof.
  induction s as [|c s IH]; [done|].
  rewrite occurs_cons. intros [Hp Ho]%orb_false_elim.
  by rewrite sub_nomatch, IH.
Qed.

Lemma all_chars_sub P s :
  all_chars P repl = true → all_chars P s = true →
  all_chars P (Re.sub pat repl s) = true.
Proof.
  intros Hrepl. induction s as [|s IH|c s Hp IH] using sub_ind; [done|..].
  - rewrite sub_match, !all_chars_app, Hrepl.
    intros [_ Hs]%andb_prop. by rewrite IH.
  - rewrite sub_nomatch by done. cbn [all_chars].
    intros [-> Hs]%andb_prop. by rewrite IH.
Qed.

(** The first character of the pattern does not occur again in it:
    no match can begin before the end of an earlier one. *)
Hypothesis first_once : all_chars (λ c, negb (Ascii.eqb c a)) p = true.

Lemma prefix_before q x y :
  all_chars (λ c, negb (Ascii.eqb c a)) q = true →
  String.prefix q (x +:+ String a y) = true → String.prefix q x = true.
Proof.
  revert q. induction x as [|d x IH]; intros q Hq H.
  - destruct q as [|b q]; [done|]. cbn [all_chars] in Hq.
    apply prefix_cons in H as [-> _].
    by rewrite Ascii.eqb_refl in Hq.
  - destruct q as [|b q]; [done|]. rewrite app_cons in H.
    apply prefix_cons in H as [-> H]. apply prefix_cons. split; [done|].
    cbn [all_chars] in Hq. apply andb_prop in Hq as [_ Hq]. by apply IH.
Qed.

(** The leftmost occurrence is the one replaced. *)
Lemma sub_leftmost x s :
  Str.occurs pat x = false →
  Re.sub pat repl (x +:+ pat +:+ s) = x +:+ repl +:+ Re.sub pat repl s.
Proof.
  induction x as [|c x IH]; intros Hx.
  - apply sub_match.
  - rewrite occurs_cons in Hx. apply orb_false_elim in Hx as [Hp Ho].
    rewrite !app_cons, sub_nomatch, IH; [done..|].
    destruct (String.prefix pat (String c (x +:+ pat +:+ s))) eqn:H; [|done].
    unfold pat in H at 1. apply prefix_cons in H as [<- H].
    apply prefix_before in H; [|done].
    rewrite <- Hp. symmetry. by apply prefix_cons.
Qed.

(** The replacement is [String r repl']; [r] does not occur in the pattern
    and the first character of the pattern does not occur in the
    replacement: a replacement cannot complete or start a new match. *)
Variables (r : ascii) (repl' : string).
Hypothesis repl_eq : repl = String r repl'.
Hypothesis repl_fresh : all_chars (λ c, negb (Ascii.eqb c r)) p = true.
Hypothesis first_fresh : all_chars (λ c, negb (Ascii.eqb c a)) repl = true.

Lemma prefix_sub_inv q s :
  all_chars (λ c, negb (Ascii.eqb c r)) q = true →
  String.prefix q (Re.sub pat repl s) = true → String.prefix q s = true.
Proof.
  revert q. induction s as [|s IH|c s Hp IH] using sub_ind; intros q Hq H.
  - done.
  - destruct q as [|b q]; [by destruct (pat +:+ s)|].
    rewrite sub_match, repl_eq, app_cons in H.
    apply prefix_cons in H as [-> _]. cbn [all_chars] in Hq.
    by rewrite Ascii.eqb_refl in Hq.
  - destruct q as [|b q]; [done|]. rewrite sub_nomatch in H by done.
    apply prefix_cons in H as [-> H]. apply prefix_cons. split; [done|].
    cbn [all_chars] in Hq. apply andb_prop in Hq as [_ Hq]. by apply IH.
Qed.

Lemma occurs_repl_app s :
  Str.occurs pat s = false → Str.occurs pat (repl +:+ s) = false.
Proof.
  intros Hs. clear repl_eq. induction repl as [|b t IH]; [done|].
  cbn [all_chars] in first_fresh. apply andb_prop in first_fresh as [Hb Ht].
  rewrite app_cons, occurs_cons, IH by done.
  rewrite orb_false_r. destruct (String.prefix pat _) eqn:H; [|done].
  unfold pat in H. apply prefix_cons in H as [<- _].
  by rewrite Ascii.eqb_refl in Hb.
Qed.

(** No occurrence of the pattern is left. *)
Lemma sub_complete s : Str.occurs pat (Re.sub pat repl s) = false.
Proof.
  induction s as [|s IH|c s Hp IH] using sub_ind.
  - done.
  - rewrite sub_match. by apply occurs_repl_app.
  - rewrite sub_nomatch, occurs_cons, IH, orb_false_r by done.
    destruct (String.prefix pat (String c (Re.sub pat repl s))) eqn:H; [|done].
    unfold pat in H at 1. apply prefix_cons in H as [<- H].
    apply prefix_sub_inv in H; [|done].
    rewrite <- Hp. symmetry. by apply prefix_cons.
Qed.

(** Substituting twice is substituting once. *)
Lemma sub_idem s :
  Re.sub pat repl (Re.sub pat repl s) = Re.sub pat repl s.
Proof. apply sub_absent, sub_complete. Qed.

Lemma sub_nil_inv s : Re.sub pat repl s = "" → s = "".
Proof.
  destruct s as [|c s]; [done|]. unfold Re.sub. cbn [Re.sub_go].
  destruct (String.prefix pat _); [|done]. by rewrite repl_eq.
Qed.

End ReFacts.

(** * The truecase model *)

Section CaseModel.

Implicit Types (d : gmap string string) (lines : list string).


Lemma parse_truecase_lines_blank lines d :
  Exists (λ line, blank line = true) lines →
  parse_truecase_lines lines d = inl IndexError.
Proof.
  intros H. revert d. induction H as [line lines Hline|line lines _ IH]; intros d.
  - apply split_nil in Hline. cbn. by rewrite Hline.
  - cbn. destruct (Str.split line); [done | apply IH].
Qed.

(** After the insertions a key is mapped to the last token that lowercases
    to it. *)
Lemma lookup_fold_insert (ws : list string) d k :
  foldl (λ d w, <[Str.lower w := w]> d) d ws !! k
  = match last (filter (λ w, Str.lower w = k) ws) with
    | Some w => Some w
    | None => d !! k
    end.
Proof.
  induction ws as [|w ws IH] using rev_ind; [done|].
  rewrite foldl_app, filter_app. cbn [foldl].
  destruct (decide (Str.lower w = k)) as [Hk|Hk].
  - rewrite filter_cons_True by done. rewrite filter_nil, last_snoc.
    by rewrite <- Hk, lookup_insert_eq.
  - rewrite filter_cons_False by done. rewrite filter_nil, (right_id_L [] (++)).
    by rewrite lookup_insert_ne.
Qed.

End CaseModel.

(** * Truecasing a line *)

Section Truecase.

Variable d : gmap string string.

Lemma insert_middle {A} (l1 l2 : list A) (x y : A) :
  <[length l1 := y]> (l1 ++ x :: l2) = l1 ++ y :: l2.
Proof. induction l1 as [|z l1 IH]; [done|]. cbn. by f_equal. Qed.

(** The loop over the indices rewrites the tokens from left to right:
    [seen] have been visited, [rest] are still to come. *)
Lemma truecase_tokens_map (seen rest : list string) :
  truecase_tokens d (seq (length seen) (length rest)) (seen ++ rest)
  = inr (seen ++ (substitute d <$> rest)).
Proof.
  revert seen. induction rest as [|w rest IH]; intros seen; [done|].
  cbn [length seq truecase_tokens fmap list_fmap].
  rewrite list_lookup_middle by done. unfold substitute at 1.
  specialize (IH (seen ++ [substitute d w])).
  rewrite length_app, Nat.add_1_r, <- (assoc_L (++)) in IH.
  destruct (d !! Str.lower w) as [v|] eqn:Hv.
  - rewrite bool_decide_true by eauto.
    rewrite insert_middle.
    unfold substitute in IH at 1 2. rewrite Hv in IH. cbn in IH.
    rewrite IH. by rewrite <- (assoc_L (++)).
  - rewrite bool_decide_false by (by intros [? ?]).
    unfold substitute in IH at 1 2. rewrite Hv in IH. cbn in IH.
    rewrite IH. by rewrite <- (assoc_L (++)).
Qed.

(** [truecase_line] never raises and maps [substitute] over the tokens. *)
Lemma truecase_line_eq (line : string) :
  truecase_line line d = inr (Str.join " " (substitute d <$> Str.split line)).
Proof.
  pose proof (truecase_tokens_map [] (Str.split line)) as H.
  cbn [length app] in H. unfold truecase_line. by rewrite H.
Qed.

End Truecase.

(** * Normalising a line *)

Section Normalize.

Lemma rstripped_rstrip s : rstripped (Str.rstrip s) = true.
Proof.
  induction s as [|c s IH]; [done|]. cbn [Str.rstrip].
  destruct (Str.rstrip s) as [|c' r]; [|done].
  by destruct (Str.isspace c) eqn:Hc; cbn; rewrite ?Hc.
Qed.

Lemma rstrip_cons c s :
  Str.rstrip (String c s)
  = match Str.rstrip s with
    | "" => if Str.isspace c then "" else String c ""
    | r => String c r
    end.
Proof. done. Qed.

Lemma rstrip_id s : rstripped s = true → Str.rstrip s = s.
Proof.
  induction s as [|c s IH]; [done|]. destruct s as [|c' s].
  - cbn. by intros ->%negb_true_iff.
  - intros H. by rewrite rstrip_cons, (IH H).
Qed.

Lemma rstripped_lower s : rstripped (Str.lower s) = rstripped s.
Proof.
  induction s as [|c s IH]; [done|]. destruct s as [|c' s].
  - cbn. by rewrite isspace_lower_char.
  - apply IH.
Qed.

Lemma rstripped_app x y :
  rstripped (x +:+ y) = match y with "" => rstripped x | _ => rstripped y end.
Proof.
  induction x as [|c x IH]; [by destruct y|].
  destruct x as [|c' x]; [by destruct y|].
  change (rstripped (String c (String c' x) +:+ y))
    with (rstripped (String c' x +:+ y)).
  rewrite IH. by destruct y.
Qed.

(** [process_line] never raises: it computes [normalize]. *)
Lemma process_line_normalize cmd_args line re_bpe detok d :
  process_line cmd_args line re_bpe detok d
  = inr (normalize cmd_args re_bpe detok d line).
Proof.
  unfold process_line, normalize, before_detok.
  destruct (Args.lc cmd_args); [done|].
  destruct (Str.truthy_opt (Args.truecase cmd_args)); [|done].
  by rewrite truecase_line_eq.
Qed.

(** The fix of the apostrophes: pattern ["&apos;"], replacement ["'"]. *)
Lemma apos_complete s : Str.occurs "&apos;" (Re.sub "&apos;" "'" s) = false.
Proof. by apply (sub_complete "&" "apos;" "'" "'" ""). Qed.

Lemma apos_idem s :
  Re.sub "&apos;" "'" (Re.sub "&apos;" "'" s) = Re.sub "&apos;" "'" s.
Proof. by apply (sub_idem "&" "apos;" "'" "'" ""). Qed.

Lemma apos_leftmost x s :
  Str.occurs "&apos;" x = false →
  Re.sub "&apos;" "'" (x +:+ "&apos;" +:+ s) = x +:+ "'" +:+ Re.sub "&apos;" "'" s.
Proof. by apply (sub_leftmost "&" "apos;" "'"). Qed.

Lemma apos_rstripped s :
  rstripped s = true → rstripped (Re.sub "&apos;" "'" s) = true.
Proof.
  induction s as [|s IH|c s Hp IH] using (sub_ind "&" "apos;").
  - done.
  - rewrite (sub_match "&" "apos;" "'"), !rstripped_app. intros H.
    destruct s as [|c s]; [done|]. specialize (IH H).
    by destruct (Re.sub "&apos;" "'" (String c s)).
  - rewrite (sub_nomatch "&" "apos;" "'") by done. intros H.
    destruct s as [|c' s]; [done|]. specialize (IH H).
    destruct (Re.sub "&apos;" "'" (String c' s)) eqn:E; [|done].
    by apply (sub_nil_inv "&" "apos;" "'" "'" "") in E.
Qed.

Lemma apos_lower s :
  Str.lower (Re.sub "&apos;" "'" (Str.lower s)) = Re.sub "&apos;" "'" (Str.lower s).
Proof.
  assert (∀ t, all_chars (λ c, Ascii.eqb (Str.lower_char c) c) t = true →
               Str.lower t = t) as Hfix.
  { induction t as [|c t IH]; [done|]. cbn [all_chars Str.lower].
    intros [->%Ascii.eqb_eq Ht]%andb_prop. by rewrite IH. }
  apply Hfix, (all_chars_sub "&" "apos;"); [done|].
  induction s as [|c s IH]; [done|]. cbn [Str.lower all_chars].
  by rewrite lower_char_idem, Ascii.eqb_refl.
Qed.

(** The empty line stays empty, provided the detokenizer, when it is
    used, returns the empty string on no token. *)
Lemma normalize_empty cmd_args re_bpe (detok : detokenizer) d :
  (Str.truthy (Args.detok cmd_args) = true → detok [] = "") →
  normalize cmd_args re_bpe detok d "" = "".
Proof.
  intros Hnil. unfold normalize, before_detok.
  assert ((if Args.lc cmd_args then Str.lower (Str.rstrip "")
           else if Str.truthy_opt (Args.truecase cmd_args)
                then Str.join " " (substitute d <$> Str.split (Str.rstrip ""))
                else Str.rstrip "") = "") as ->.
  { by destruct (Args.lc cmd_args), (Str.truthy_opt (Args.truecase cmd_args)). }
  assert ((if Args.del_bpe cmd_args then Re.sub re_bpe "" "" else "") = "") as ->.
  { by destruct (Args.del_bpe cmd_args). }
  destruct (Str.truthy (Args.detok cmd_args)); [|done].
  change (Str.split "") with (@nil string). by rewrite Hnil.
Qed.

End Normalize.

(** * Printing and reading *)

Section Output.

Lemma app_nil_l (s : string) : "" +:+ s = s.
Proof. done. Qed.

Lemma bind_value {A B} (o : string) (x : A) (k : A → io B) :
  Io o (inr x) ≫= k = Io (o +:+ stdout (k x)) (outcome (k x)).
Proof. done. Qed.

Lemma print_hyp_eq hyp_num ref_line hyp_line :
  print_hyp hyp_num ref_line hyp_line
  = Io (hyp_text hyp_num ref_line hyp_line) (inr ()).
Proof.
  unfold print_hyp, hyp_text, print, write.
  destruct (bool_decide (ref_line = hyp_line));
    rewrite !bind_value; cbn [stdout outcome]; by rewrite !app_assoc.
Qed.

Lemma line_at_readline (f : file) :
  readline f = (line_at f 0, tail f).
Proof. by destruct f. Qed.

Lemma line_at_tail (f : file) i : line_at (tail f) i = line_at f (S i).
Proof. unfold line_at. by rewrite lookup_tail. Qed.

Lemma cat_cons s l : cat (s :: l) = s +:+ cat l.
Proof. done. Qed.

Variables (cmd_args : Args.t) (detok : detokenizer) (d : gmap string string).

Lemma call_process_line_eq line (dict : gmap string string) :
  call_process_line cmd_args line "@@ " (Some detok) dict
  = Io "" (inr (normalize cmd_args "@@ " detok dict line)).
Proof.
  unfold call_process_line, local, io_ret. rewrite bind_value.
  unfold lift. cbn [stdout outcome]. by rewrite process_line_normalize.
Qed.

Lemma process_lines_hyps_eq ref_line hyps hyp_num :
  process_lines_hyps cmd_args "@@ " (Some detok) d ref_line hyps hyp_num
  = Io (hyps_text (normalize cmd_args "@@ " detok d) ref_line 0 hyps hyp_num)
       (inr (hyp_num + Z.of_nat (length hyps), tail <$> hyps)).
Proof.
  revert hyp_num. induction hyps as [|hyp hyps IH]; intros hyp_num.
  - cbn. by rewrite Z.add_0_r.
  - cbn [process_lines_hyps hyps_text]. rewrite line_at_readline.
    cbv beta iota. rewrite call_process_line_eq, bind_value, print_hyp_eq, bind_value, IH.
    rewrite bind_value. cbn [stdout outcome mret io_mret io_ret].
    rewrite app_nil_l, app_nil_r. do 3 f_equal. cbn [length]. lia.
Qed.

Lemma hyps_text_tail norm ref_line i hyps hyp_num :
  hyps_text norm ref_line i (tail <$> hyps) hyp_num
  = hyps_text norm ref_line (S i) hyps hyp_num.
Proof.
  revert hyp_num. induction hyps as [|hyp hyps IH]; intros hyp_num; [done|].
  cbn [fmap list_fmap hyps_text]. f_equal; [|apply IH].
  by rewrite line_at_tail.
Qed.

Variable translate : string → string → string.

Lemma group_text_tail src_line src ref hyps i :
  group_text cmd_args translate detok d src (tail <$> ref) (tail <$> hyps) i
  = group_text cmd_args translate detok d (src_line :: src) ref hyps (S i).
Proof.
  unfold group_text. rewrite hyps_text_tail, length_fmap.
  destruct ref as [ref|]; cbn [fmap option_fmap option_map];
    by rewrite ?line_at_tail.
Qed.

(** The loop prints one block per source line, up to the cap; iteration
    [i] sees line [i] of every file. *)
Lemma process_lines_loop_eq mt src line_num ref hyps :
  (Str.truthy_opt (Args.google cmd_args) = true → mt = Some translate) →
  process_lines_loop cmd_args "@@ " mt (Some detok) d src line_num ref hyps
  = Io (cat (group_text cmd_args translate detok d src ref hyps
               <$> seq 0 (Z.to_nat (Z.min (Z.of_nat (length src))
                                      (Args.head cmd_args - line_num)))))
       (inr ()).
Proof.
  intros Hmt. revert line_num ref hyps.
  induction src as [|src_line src IH]; intros line_num ref hyps.
  - by replace (Z.to_nat _) with 0%nat by (cbn [length]; lia).
  - cbn [process_lines_loop]. case_bool_decide as Hcap.
    { by replace (Z.to_nat _) with 0%nat by (cbn [length]; lia). }
    replace (Z.to_nat _)
      with (S (Z.to_nat (Z.min (Z.of_nat (length src))
                           (Args.head cmd_args - (line_num + 1)))))
      by (cbn [length]; lia).
    cbn [seq fmap list_fmap]. rewrite cat_cons, <- fmap_S_seq, <- list_fmap_compose.
    rewrite call_process_line_eq, bind_value, app_nil_l.
    assert (∀ k : string * option file → io (),
      (match ref with
       | None => mret ("", None)
       | Some ref =>
           let '(ref_line, ref) := readline ref in
           ref_line ← call_process_line cmd_args ref_line "@@ " (Some detok) d;
           print ("Ref:    " +:+ " " +:+ ref_line);;
           mret (ref_line, Some ref)
       end ≫= k)
      = let ref_line := match ref with
                        | Some ref => normalize cmd_args "@@ " detok d (line_at ref 0)
                        | None => ""
                        end in
        Io (match ref with
            | Some _ => "Ref:     " +:+ ref_line +:+ nl
            | None => ""
            end +:+ stdout (k (ref_line, tail <$> ref)))
           (outcome (k (ref_line, tail <$> ref)))) as Href.
    { intros k. destruct ref as [ref|]; [|done].
      rewrite line_at_readline. cbv beta iota.
      rewrite call_process_line_eq.
      unfold print, write. rewrite !bind_value.
      cbn [stdout outcome mret io_mret io_ret fmap option_fmap option_map].
      by rewrite app_nil_l, app_nil_r. }
    unfold print, write. rewrite bind_value. cbn [stdout outcome].
    rewrite Href. cbn zeta. cbn [stdout outcome].
    rewrite process_lines_hyps_eq, bind_value. cbn [stdout outcome].
    assert (∀ hyp_num ref_line src_text,
      match Args.google cmd_args with
      | Some lang =>
          if Str.truthy lang then
            translate ← local mt;
            let google_line := translate src_text lang in
            google_line ← call_process_line cmd_args google_line "@@ " (Some detok) ∅;
            print_hyp hyp_num ref_line google_line
          else mret ()
      | None => mret ()
      end
      = Io match Args.google cmd_args with
           | Some lang =>
               if Str.truthy lang
               then hyp_text hyp_num ref_line
                      (normalize cmd_args "@@ " detok ∅ (translate src_text lang))
               else ""
           | None => ""
           end (inr ())) as Hgoogle.
    { intros hyp_num ref_line src_text. unfold Str.truthy_opt in Hmt.
      destruct (Args.google cmd_args) as [lang|]; [|done].
      destruct (Str.truthy lang); [|done]. rewrite Hmt by done.
      unfold local, io_ret. rewrite bind_value. cbv beta.
      rewrite call_process_line_eq, bind_value. by rewrite print_hyp_eq. }
    rewrite Hgoogle, !bind_value, IH. cbn [stdout outcome].
    rewrite (list_fmap_ext _
               (group_text cmd_args translate detok d (src_line :: src) ref hyps ∘ S)
               (seq 0 _))
      by (intros; apply group_text_tail).
    f_equal. unfold group_text at 2. by rewrite !app_assoc.
Qed.

End Output.

(** * A whole run *)

Section Run.

Variables (pkgs : packages) (cmd_args : Args.t).
Variable MosesDetokenizer : string → detokenizer.

(** The detokenizer is requested and NLTK is ready; the translation
    package is there when it is requested. *)
Hypothesis detok_on : Str.truthy (Args.detok cmd_args) = true.
Hypothesis nltk_ready : nltk pkgs = NltkReady MosesDetokenizer.
Hypothesis google_ready :
  Str.truthy_opt (Args.google cmd_args) = true → is_Some (mtranslate pkgs).

(** The run ends normally and prints the first [group_count] groups. *)
Lemma process_lines_eq src ref hyps d :
  process_lines pkgs cmd_args src ref hyps d
  = Io (cat (group_text cmd_args (default (λ _ _, "") (mtranslate pkgs))
               (MosesDetokenizer (Args.detok cmd_args)) d src ref hyps
             <$> seq 0 (group_count cmd_args src)))
       (inr ()).
Proof.
  unfold process_lines, group_count. rewrite detok_on, nltk_ready.
  assert ((if Str.truthy_opt (Args.google cmd_args)
           then match mtranslate pkgs with
                | Some translate => mret (Some translate)
                | None =>
                    print "Error: Install package 'mtranslate': pip install --user -U mtranslate";;
                    exit 2
                end
           else mret None)
          = Io "" (inr (mtranslate pkgs ≫= λ t,
                          if Str.truthy_opt (Args.google cmd_args)
                          then Some t else None))) as ->.
  { destruct (Str.truthy_opt (Args.google cmd_args)).
    - by destruct google_ready as [t ->].
    - by destruct (mtranslate pkgs). }
  rewrite bind_value. unfold mret, io_mret, io_ret. rewrite bind_value.
  rewrite (process_lines_loop_eq _ _ _ (default (λ _ _ : string, "") (mtranslate pkgs))).
  - cbn [stdout outcome]. by rewrite Z.sub_0_r.
  - intros Hg. rewrite Hg. by destruct (google_ready Hg) as [t ->].
Qed.

End Run.

Section RunFacts.

(** Without a detokenizer the first group already fails: the local
    variable [detok] of [process_lines] was never assigned. *)
Lemma process_lines_unbound_detok pkgs cmd_args src_line src ref hyps d :
  Str.truthy (Args.detok cmd_args) = false →
  Args.google cmd_args = None →
  1 ≤ Args.head cmd_args →
  process_lines pkgs cmd_args (src_line :: src) ref hyps d
  = Io "" (inl UnboundLocalError).
Proof.
  intros Hd Hg Hh. unfold process_lines. rewrite Hd, Hg. cbn [Str.truthy_opt].
  unfold mret, io_mret, io_ret. rewrite !bind_value.
  cbn [process_lines_loop]. by rewrite bool_decide_false by lia.
Qed.

(** The hypothesis lines of a group, one by one. *)
Lemma hyps_text_imap norm ref_line i hyps hyp_num :
  hyps_text norm ref_line i hyps hyp_num
  = cat (imap (λ k hyp, hyp_text (hyp_num + Z.of_nat k) ref_line
                          (norm (line_at hyp i))) hyps).
Proof.
  revert hyp_num. induction hyps as [|hyp hyps IH]; intros hyp_num; [done|].
  cbn [hyps_text imap]. rewrite cat_cons, IH, Z.add_0_r. do 2 f_equal.
  apply imap_ext. intros k h _. cbn [compose].
  by replace (hyp_num + 1 + Z.of_nat k) with (hyp_num + Z.of_nat (S k)) by lia.
Qed.

Lemma same_reads_pad (f : file) n : same_reads f (f ++ replicate n "").
Proof.
  intros i. unfold line_at. destruct (decide (i < length f)%nat) as [Hi|Hi].
  - by rewrite lookup_app_l.
  - rewrite lookup_ge_None_2 by lia. rewrite lookup_app_r by lia.
    by destruct (replicate n "" !! _) eqn:E; [apply lookup_replicate in E as [-> _]|].
Qed.

Lemma hyps_text_same_reads norm ref_line i hyps hyps' hyp_num :
  Forall2 same_reads hyps hyps' →
  hyps_text norm ref_line i hyps hyp_num = hyps_text norm ref_line i hyps' hyp_num.
Proof.
  intros H. revert hyp_num.
  induction H as [|hyp hyp' hyps hyps' Hhyp _ IH]; intros hyp_num; [done|].
  cbn [hyps_text]. by rewrite (Hhyp i), IH.
Qed.

(** A group depends on the files through the lines read only. *)
Lemma group_text_same_reads cmd_args translate detok d src ref ref' hyps hyps' i :
  option_Forall2 same_reads ref ref' →
  Forall2 same_reads hyps hyps' →
  group_text cmd_args translate detok d src ref hyps i
  = group_text cmd_args translate detok d src ref' hyps' i.
Proof.
  intros Href Hhyps. unfold group_text.
  rewrite (Forall2_length _ _ _ Hhyps).
  destruct Href as [ref ref' Href|].
  - by rewrite (Href i), (hyps_text_same_reads _ _ _ _ _ _ Hhyps).
  - by rewrite (hyps_text_same_reads _ _ _ _ _ _ Hhyps).
Qed.

(** Without a detokenizer the loop stops at its first group, whatever the
    files hold. *)
Lemma process_lines_loop_unbound cmd_args mt d src line_num ref hyps :
  process_lines_loop cmd_args "@@ " mt None d src line_num ref hyps
  = match src with
    | [] => Io "" (inr ())
    | _ :: _ =>
        if bool_decide (line_num + 1 > Args.head cmd_args)
        then Io "" (inr ()) else Io "" (inl UnboundLocalError)
    end.
Proof.
  destruct src as [|src_line src]; [done|]. cbn [process_lines_loop].
  by case_bool_decide.
Qed.

(** A run cannot tell a file that has ended from one that goes on with
    empty lines. *)
Lemma process_lines_same_reads pkgs cmd_args src ref ref' hyps hyps' d :
  option_Forall2 same_reads ref ref' →
  Forall2 same_reads hyps hyps' →
  process_lines pkgs cmd_args src ref hyps d
  = process_lines pkgs cmd_args src ref' hyps' d.
Proof.
  intros Href Hhyps.
  destruct (Str.truthy_opt (Args.google cmd_args)) eqn:Hg;
    [destruct (mtranslate pkgs) as [translate|] eqn:Hmt|].
  2: { unfold process_lines. by rewrite Hg, Hmt. }
  all: destruct (Str.truthy (Args.detok cmd_args)) eqn:Hd;
    [destruct (nltk pkgs) as [| |MosesDetokenizer] eqn:Hn|].
  all: try (unfold process_lines; rewrite Hg, Hd, ?Hmt, ?Hn;
            unfold mret, io_mret, io_ret; rewrite ?bind_value;
            by rewrite ?process_lines_loop_unbound).
  all: assert (Str.truthy_opt (Args.google cmd_args) = true → is_Some (mtranslate pkgs))
         as Hready by (intros ?; first [congruence | by rewrite Hmt]).
  all: rewrite !(process_lines_eq _ _ MosesDetokenizer) by done.
  all: f_equal; f_equal; apply list_fmap_ext; intros _ i _;
    by apply group_text_same_reads.
Qed.

End RunFacts.

(** * The claims of the specification *)

(** C1 does not hold of the code.  [main] calls the loader whatever the
    options are; without [--truecase] the path is [None] and [open] raises
    [TypeError] before anything is printed, for every invocation whose
    source file exists. *)
Theorem main_without_truecase_raises
    (fs : filesystem) (pkgs : packages) (cli : Cli.t) :
  Cli.truecase cli = None →
  isfile fs (Args.src (parse_args cli)) = true →
  parse_truecase_model fs (Args.truecase (parse_args cli)) = inl TypeError
  ∧ main fs pkgs cli = Io "" (inl TypeError).
Proof.
  intros Htc Hsrc. unfold main. rewrite Hsrc.
  cbn [parse_args Args.truecase]. by rewrite Htc.
Qed.

(** [mt_meld.py --src src.txt --hyps hyp.txt] on the sample files. *)
Lemma main_without_truecase_raises_witness :
  main Sample.fs Sample.pkgs Sample.cli = Io "" (inl TypeError).
Proof.
  apply (main_without_truecase_raises Sample.fs Sample.pkgs Sample.cli);
    reflexivity.
Defined.






(** C4.  [truecase_line] splits the line into its tokens (the maximal runs
    without white space), replaces a token by the mapped value when its
    lowercased form is a key and keeps it otherwise, and joins the result
    with single spaces; a run of white space therefore counts as one
    separator.  The two examples of the specification hold. *)
Theorem truecase_line_substitutes (line : string) (d : gmap string string) :
  truecase_line line d = inr (Str.join " " (substitute d <$> Str.split line))
  ∧ Forall is_token (Str.split line)
  ∧ (∀ w cased, d !! Str.lower w = Some cased → substitute d w = cased)
  ∧ (∀ w, d !! Str.lower w = None → substitute d w = w)
  ∧ Str.split (Str.join " " (Str.split line)) = Str.split line
  ∧ (∀ s1 s2 c c', Str.isspace c = true → Str.isspace c' = true →
       truecase_line (s1 +:+ String c (String c' s2)) d
       = truecase_line (s1 +:+ String c s2) d)
  ∧ truecase_line "the NATO alliance" {[ "nato" := "NATO" ]} = inr "the NATO alliance"
  ∧ truecase_line "the nato alliance" {[ "nato" := "NATO" ]} = inr "the NATO alliance".
Proof.
  split; [apply truecase_line_eq|].
  split; [apply split_tokens|].
  split; [by intros w cased H; unfold substitute; rewrite H|].
  split; [by intros w H; unfold substitute; rewrite H|].
  split; [apply split_join, split_tokens|].
  split; [|by split; vm_compute].
  intros s1 s2 c c' Hc Hc'. rewrite !truecase_line_eq, !split_app_space by done.
  by rewrite (split_app_space "" c' s2 Hc' : Str.split (String c' s2) = _).
Qed.

(** C5.  With [--lc] set the line is lowercased and the truecaser is not
    run: the result is the chain with [lower] in the casing step, whatever
    the [--truecase] option and the mapping are. *)
Theorem lowercase_wins (cmd_args : Args.t) (line re_bpe : string)
    (detok : detokenizer) (d : gmap string string) :
  Args.lc cmd_args = true →
  process_line cmd_args line re_bpe detok d
  = inr (Re.sub "&apos;" "'"
           (let line := Str.lower (Str.rstrip line) in
            let line := if Args.del_bpe cmd_args
                        then Re.sub re_bpe "" line else line in
            if Str.truthy (Args.detok cmd_args)
            then detok (Str.split line) else line))
  ∧ ∀ truecase d',
      process_line (with_truecase truecase cmd_args) line re_bpe detok d'
      = process_line cmd_args line re_bpe detok d.
Proof.
  intros Hlc. split.
  - unfold process_line. by rewrite Hlc.
  - intros truecase d'. unfold process_line. cbn [with_truecase Args.lc].
    by rewrite Hlc.
Qed.

(** Both options set: "nato" stays in lower case although the mapping has it. *)
Lemma lowercase_wins_witness :
  process_line Sample.args_lc "The nato &apos;Alliance&apos; " "@@ " Sample.spaced
    {[ "nato" := "NATO" ]}
  = inr "the nato 'alliance'".
Proof.
  destruct (lowercase_wins Sample.args_lc "The nato &apos;Alliance&apos; " "@@ "
              Sample.spaced {[ "nato" := "NATO" ]}) as [H _].
  - reflexivity.
  - rewrite H. reflexivity.
Defined.

(** C6.  [print_hyp] writes the ordinal, then the marker ":-) " when the
    hypothesis line equals the reference line and four spaces when it does
    not, then the hypothesis line; the marker is written if and only if the
    two lines are equal.  In a group each hypothesis is printed this way,
    with the normalised reference line and its own normalised line. *)
Theorem print_hyp_marker (hyp_num : Z) (ref_line hyp_line : string) :
  print_hyp hyp_num ref_line hyp_line
  = Io ("MT" +:+ pretty hyp_num +:+ ": "
        +:+ (if bool_decide (ref_line = hyp_line) then ":-) " else "    ")
        +:+ hyp_line +:+ nl) (inr ())
  ∧ (stdout (print_hyp hyp_num ref_line hyp_line)
     = "MT" +:+ pretty hyp_num +:+ ": " +:+ ":-) " +:+ hyp_line +:+ nl
     ↔ ref_line = hyp_line)
  ∧ (stdout (print_hyp hyp_num ref_line hyp_line)
     = "MT" +:+ pretty hyp_num +:+ ": " +:+ "    " +:+ hyp_line +:+ nl
     ↔ ref_line ≠ hyp_line)
  ∧ print_hyp 1 "the cat sat" "the cat sat" = Io ("MT1: :-) the cat sat" +:+ nl) (inr ())
  ∧ print_hyp 1 "the cat sat" "the cat ran" = Io ("MT1:     the cat ran" +:+ nl) (inr ())
  ∧ ∀ cmd_args detok d hyps,
      stdout (process_lines_hyps cmd_args "@@ " (Some detok) d ref_line hyps 1)
      = cat (imap (λ k hyp,
                     stdout (print_hyp (1 + Z.of_nat k) ref_line
                               (normalize cmd_args "@@ " detok d (line_at hyp 0))))
               hyps).
Proof.
  split; [apply print_hyp_eq|]. rewrite print_hyp_eq. cbn [stdout].
  unfold hyp_text.
  assert (∀ x y : string, ("MT" +:+ pretty hyp_num +:+ ": " +:+ x +:+ hyp_line +:+ nl)
            = ("MT" +:+ pretty hyp_num +:+ ": " +:+ y +:+ hyp_line +:+ nl) →
          x +:+ hyp_line +:+ nl = y +:+ hyp_line +:+ nl) as Hinj.
  { intros x y H. rewrite <- !(app_assoc _ ": ") in H.
    rewrite <- !(app_assoc "MT") in H. by apply (inj _) in H. }
  split; [|split; [|split; [done|split; [done|]]]].
  - case_bool_decide as Heq; split; try done.
    intros H%Hinj. discriminate H.
  - case_bool_decide as Heq; split; try done.
    intros H%Hinj. discriminate H.
  - intros cmd_args detok d hyps.
    rewrite process_lines_hyps_eq, hyps_text_imap. cbn [stdout]. f_equal.
    apply imap_ext. intros k hyp _. cbn [compose]. by rewrite print_hyp_eq.
Qed.

(** C7.  A reference or hypothesis file that has fewer lines than the
    source neither stops the run nor raises anything.  An iteration past
    the end of a file reads the empty string from it ([readline] at the end
    of file), and a run cannot tell such a file from one that goes on with
    empty lines: output and outcome are the same.  Once the detokenizer and
    the translation package are set up the run ends normally after as many
    groups as the source and the cap allow; the line of an exhausted file in
    a group is the normalised empty line, which is empty when the
    detokenizer returns the empty string on no token. *)
Theorem exhausted_stream_reads_empty_line
    (pkgs : packages) (cmd_args : Args.t)
    (src : file) (ref : option file) (hyps : list file) (d : gmap string string) :
  readline [] = ("", [])
  ∧ (∀ (f : file) i, (length f ≤ i)%nat → line_at f i = "")
  ∧ (∀ ref' hyps',
       option_Forall2 same_reads ref ref' →
       Forall2 same_reads hyps hyps' →
       process_lines pkgs cmd_args src ref' hyps' d
       = process_lines pkgs cmd_args src ref hyps d)
  ∧ (∀ n,
       process_lines pkgs cmd_args src
         ((λ f, f ++ replicate n "") <$> ref) ((λ f, f ++ replicate n "") <$> hyps) d
       = process_lines pkgs cmd_args src ref hyps d)
  ∧ (∀ MosesDetokenizer,
       Str.truthy (Args.detok cmd_args) = true →
       nltk pkgs = NltkReady MosesDetokenizer →
       (Str.truthy_opt (Args.google cmd_args) = true → is_Some (mtranslate pkgs)) →
       let detok := MosesDetokenizer (Args.detok cmd_args) in
       let translate := default (λ _ _, "") (mtranslate pkgs) in
       process_lines pkgs cmd_args src ref hyps d
       = Io (cat (group_text cmd_args translate detok d src ref hyps
                  <$> seq 0 (group_count cmd_args src)))
            (inr ())
       ∧ (detok [] = "" → normalize cmd_args "@@ " detok d "" = "")).
Proof.
  split; [done|]. split; [|split; [|split]].
  - intros f i Hi. unfold line_at. by rewrite lookup_ge_None_2.
  - intros ref' hyps' Href Hhyps. symmetry. by apply process_lines_same_reads.
  - intros n. symmetry. apply process_lines_same_reads.
    + destruct ref as [ref0|]; constructor. apply same_reads_pad.
    + induction hyps as [|hyp hyps' IH]; constructor; [apply same_reads_pad | done].
  - intros MosesDetokenizer Hdetok Hnltk Hgoogle detok translate.
    split; [by apply process_lines_eq|].
    intros Hnil. by apply normalize_empty.
Qed.

(** Three source lines, one reference line, two hypothesis lines. *)
Lemma exhausted_stream_reads_empty_line_witness :
  process_lines Sample.pkgs Sample.args
    ["ein Haus" +:+ nl; "zwei" +:+ nl; "drei" +:+ nl]
    (Some ["a house" +:+ nl]) [["a house" +:+ nl; "two" +:+ nl]] ∅
  = Io "Src:     ein Haus
Ref:     a house
MT1: :-) a house

Src:     zwei
Ref:     
MT1:     two

Src:     drei
Ref:     
MT1: :-) 

" (inr ()).
Proof.
  pose proof (exhausted_stream_reads_empty_line Sample.pkgs Sample.args
                ["ein Haus" +:+ nl; "zwei" +:+ nl; "drei" +:+ nl]
                (Some ["a house" +:+ nl]) [["a house" +:+ nl; "two" +:+ nl]] ∅)
    as (_ & _ & _ & _ & H).
  specialize (H (λ _, Sample.spaced) eq_refl eq_refl).
  cbv zeta in H. destruct H as [H _].
  - intros H. discriminate H.
  - rewrite H. vm_compute. reflexivity.
Defined.

(** C8 fails as stated.  With only [--del_bpe] set, one pass over
    "@@@ @ x" removes the marker it finds and leaves "@@ x", in which a new
    marker has formed; the second pass removes that one too. *)
Lemma normalize_twice_differs :
  ¬ (∀ (cmd_args : Args.t) (line re_bpe : string) (detok : detokenizer)
       (d : gmap string string) (once : string),
       Str.truthy (Args.detok cmd_args) = false →
       Str.truthy_opt (Args.google cmd_args) = false →
       process_line cmd_args line re_bpe detok d = inr once →
       process_line cmd_args once re_bpe detok d = inr once).
Proof.
  intros H.
  specialize (H Sample.args_bpe "@@@ @ x" "@@ " Sample.spaced ∅ "@@ x"
                eq_refl eq_refl eq_refl).
  vm_compute in H. discriminate H.
Qed.

(** The truecaser breaks it as well: the apostrophe fix of the first pass
    produces a token that the second pass finds in the mapping. *)
Lemma truecase_twice_differs :
  process_line Sample.args_tc "&apos;s" "@@ " Sample.spaced {[ "'s" := "'S" ]}
  = inr "'s"
  ∧ process_line Sample.args_tc "'s" "@@ " Sample.spaced {[ "'s" := "'S" ]}
    = inr "'S".
Proof. split; reflexivity. Qed.

(** C8, amended.  In every configuration the last step replaces every
    occurrence of "&apos;" by an apostrophe: the result is the substitution
    applied to the line as the earlier steps left it, the leftmost
    occurrence in a text is replaced and the scan goes on behind it, and
    the result contains no "&apos;", so that fixing it again changes
    nothing.  When the detokenizer and the removal of BPE markers are off
    and the truecaser is not run (no [--truecase], or [--lc] set),
    normalising the result again gives the same line. *)
Theorem apostrophe_fix_idempotent (cmd_args : Args.t) (line re_bpe : string)
    (detok : detokenizer) (d : gmap string string) :
  let once := normalize cmd_args re_bpe detok d line in
  process_line cmd_args line re_bpe detok d = inr once
  ∧ once = Re.sub "&apos;" "'"
             (let staged := before_detok cmd_args re_bpe d line in
              if Str.truthy (Args.detok cmd_args)
              then detok (Str.split staged) else staged)
  ∧ (∀ x s, Str.occurs "&apos;" x = false →
            Re.sub "&apos;" "'" (x +:+ "&apos;" +:+ s)
            = x +:+ "'" +:+ Re.sub "&apos;" "'" s)
  ∧ Str.occurs "&apos;" once = false
  ∧ Re.sub "&apos;" "'" once = once
  ∧ (Str.truthy (Args.detok cmd_args) = false →
     Args.del_bpe cmd_args = false →
     Args.lc cmd_args = true ∨ Str.truthy_opt (Args.truecase cmd_args) = false →
     process_line cmd_args once re_bpe detok d = inr once).
Proof.
  intros once. split; [apply process_line_normalize|].
  split; [done|]. split; [apply apos_leftmost|].
  split; [apply apos_complete|]. split; [apply apos_idem|].
  intros Hdetok Hbpe Htc. rewrite process_line_normalize. f_equal.
  subst once. unfold normalize, before_detok. rewrite Hdetok, Hbpe.
  destruct (Args.lc cmd_args).
  - rewrite rstrip_id.
    + by rewrite apos_lower, apos_idem.
    + by rewrite apos_rstripped; [|rewrite rstripped_lower, rstripped_rstrip].
  - destruct Htc as [Htc| ->]; [done|]. rewrite rstrip_id.
    + by rewrite apos_idem.
    + apply apos_rstripped, rstripped_rstrip.
Qed.

(** With [--lc] alone a second pass changes nothing. *)
Lemma apostrophe_fix_idempotent_witness :
  process_line Sample.args_plain ("It&apos;s  GOOD " +:+ nl) "@@ " Sample.spaced ∅
  = inr "it's  good"
  ∧ process_line Sample.args_plain "it's  good" "@@ " Sample.spaced ∅
    = inr "it's  good".
Proof.
  pose proof (apostrophe_fix_idempotent Sample.args_plain
                ("It&apos;s  GOOD " +:+ nl) "@@ " Sample.spaced ∅) as H.
  cbv zeta in H. destruct H as (Hrun & _ & _ & _ & _ & Hidem).
  specialize (Hidem eq_refl eq_refl (or_introl eq_refl)).
  replace (normalize Sample.args_plain "@@ " Sample.spaced ∅
             ("It&apos;s  GOOD " +:+ nl)) with "it's  good" in * by reflexivity.
  split; assumption.
Defined.

(** C9.  Without a reference file the reference line of every group is the
    empty string: a hypothesis is printed with the marker exactly when its
    normalised line is empty, as is the line read past the end of a
    hypothesis file when the detokenizer returns the empty string on no
    token. *)
Theorem no_reference_empty_hypothesis_matches
    (pkgs : packages) (cmd_args : Args.t) (MosesDetokenizer : string → detokenizer)
    (src : file) (hyps : list file) (d : gmap string string) :
  Str.truthy (Args.detok cmd_args) = true →
  nltk pkgs = NltkReady MosesDetokenizer →
  (Str.truthy_opt (Args.google cmd_args) = true → is_Some (mtranslate pkgs)) →
  let detok := MosesDetokenizer (Args.detok cmd_args) in
  let translate := default (λ _ _, "") (mtranslate pkgs) in
  let norm := normalize cmd_args "@@ " detok d in
  process_lines pkgs cmd_args src None hyps d
  = Io (cat (group_text cmd_args translate detok d src None hyps
             <$> seq 0 (group_count cmd_args src)))
       (inr ())
  ∧ (∀ i, group_text cmd_args translate detok d src None hyps i
          = "Src:     " +:+ norm (line_at src i) +:+ nl
            +:+ cat (imap (λ k hyp,
                             "MT" +:+ pretty (1 + Z.of_nat k) +:+ ": "
                             +:+ (if bool_decide (norm (line_at hyp i) = "")
                                  then ":-) " else "    ")
                             +:+ norm (line_at hyp i) +:+ nl) hyps)
            +:+ match Args.google cmd_args with
                | Some lang =>
                    if Str.truthy lang
                    then hyp_text (1 + Z.of_nat (length hyps)) ""
                           (normalize cmd_args "@@ " detok ∅
                              (translate (norm (line_at src i)) lang))
                    else ""
                | None => ""
                end
            +:+ nl)
  ∧ (∀ hyp_num, print_hyp hyp_num "" ""
                = Io ("MT" +:+ pretty hyp_num +:+ ": :-) " +:+ nl) (inr ()))
  ∧ (detok [] = "" → ∀ (hyp : file) i, (length hyp ≤ i)%nat → norm (line_at hyp i) = "").
Proof.
  intros Hdetok Hnltk Hgoogle detok translate norm.
  split; [by apply process_lines_eq|]. split; [|split].
  - intros i. unfold group_text. fold norm. rewrite hyps_text_imap, app_nil_l.
    do 3 f_equal. f_equal. f_equal. apply imap_ext. intros k hyp _.
    unfold hyp_text. do 3 f_equal.
    case_bool_decide; case_bool_decide; congruence.
  - intros hyp_num. by rewrite print_hyp_eq.
  - intros Hnil hyp i Hi. unfold line_at. rewrite lookup_ge_None_2 by done.
    by apply normalize_empty.
Qed.

(** Two source lines, no reference, one hypothesis line: the second group
    marks the empty hypothesis. *)
Lemma no_reference_empty_hypothesis_matches_witness :
  process_lines Sample.pkgs Sample.args
    ["ein Haus" +:+ nl; "zwei" +:+ nl] None [["a house" +:+ nl]] ∅
  = Io "Src:     ein Haus
MT1:     a house

Src:     zwei
MT1: :-) 

" (inr ()).
Proof.
  pose proof (no_reference_empty_hypothesis_matches Sample.pkgs Sample.args
                (λ _, Sample.spaced)
                ["ein Haus" +:+ nl; "zwei" +:+ nl] [["a house" +:+ nl]] ∅
                eq_refl eq_refl) as H.
  cbv zeta in H. destruct H as [H _].
  - intros H. discriminate H.
  - rewrite H. vm_compute. reflexivity.
Defined.

(** C10.  A model file with a blank line (no character other than white
    space) makes the loader raise [IndexError]; the line is not skipped and
    no mapping is returned. *)
Theorem parse_truecase_model_blank_line
    (fs : filesystem) (path : string) (lines : list string) :
  fs !! path = Some lines →
  Exists (λ line, blank line = true) lines →
  parse_truecase_model fs (Some path) = inl IndexError.
Proof.
  intros Hfs Hblank. unfold parse_truecase_model, open. rewrite Hfs.
  by apply parse_truecase_lines_blank.
Qed.

(** The sample model with a line of two spaces in the middle. *)
Lemma parse_truecase_model_blank_line_witness :
  parse_truecase_model Sample.fs (Some "holes.txt") = inl IndexError.
Proof.
  apply (parse_truecase_model_blank_line Sample.fs "holes.txt"
           ["NATO foo" +:+ nl; "  " +:+ nl; "nato bar" +:+ nl]).
  - reflexivity.
  - right. left. reflexivity.
Defined.

(** * Further properties of the code *)

(** ** More on the built-ins *)

Section MoreStrFacts.

Lemma rstrip_blank w : blank w = true → Str.rstrip w = "".
Proof.
  induction w as [|c w IH]; [done|]. unfold blank in *. cbn [all_chars].
  intros [Hc Hw]%andb_prop. by rewrite rstrip_cons, IH, Hc.
Qed.

(** Trailing white space is dropped whatever stands before it. *)
Lemma rstrip_app_blank s w : blank w = true → Str.rstrip (s +:+ w) = Str.rstrip s.
Proof.
  intros Hw. induction s as [|c s IH]; [by apply rstrip_blank|].
  by rewrite app_cons, !rstrip_cons, IH.
Qed.

(** A text is what [rstrip] keeps of it followed by blanks. *)
Lemma rstrip_split_off s : ∃ w, blank w = true ∧ s = Str.rstrip s +:+ w.
Proof.
  induction s as [|c s (w & Hw & IH)]; [by exists ""|].
  rewrite rstrip_cons. destruct (Str.rstrip s) as [|c' r] eqn:Hr.
  - change (s = w) in IH. subst w. destruct (Str.isspace c) eqn:Hc.
    + exists (String c s). split; [|done]. unfold blank in *.
      cbn [all_chars]. by rewrite Hc, Hw.
    + by exists s.
  - exists w. split; [done|]. by rewrite IH at 1.
Qed.

Lemma rstrip_lower s : Str.rstrip (Str.lower s) = Str.lower (Str.rstrip s).
Proof.
  induction s as [|c s IH]; [done|]. cbn [Str.lower].
  rewrite !rstrip_cons, IH. destruct (Str.rstrip s); cbn [Str.lower]; [|done].
  rewrite isspace_lower_char. by destruct (Str.isspace c).
Qed.

Lemma split_go_blank cur w : blank w = true → Str.split_go cur w = Str.flush cur.
Proof.
  revert cur. induction w as [|c w IH]; intros cur; [done|].
  unfold blank in *. cbn [all_chars Str.split_go].
  intros [-> Hw]%andb_prop. rewrite IH by done. apply (right_id_L [] (++)).
Qed.

Lemma split_go_app_blank cur s w :
  blank w = true → Str.split_go cur (s +:+ w) = Str.split_go cur s.
Proof.
  intros Hw. revert cur. induction s as [|c s IH]; intros cur.
  - by apply split_go_blank.
  - rewrite app_cons. cbn [Str.split_go]. by rewrite !IH.
Qed.

(** Trailing white space holds no token. *)
Lemma split_rstrip s : Str.split (Str.rstrip s) = Str.split s.
Proof.
  destruct (rstrip_split_off s) as (w & Hw & Hs). rewrite Hs at 2.
  symmetry. by apply split_go_app_blank.
Qed.

Lemma split_go_lower cur s :
  Str.split_go (Str.lower cur) (Str.lower s) = Str.lower <$> Str.split_go cur s.
Proof.
  revert cur. induction s as [|c s IH]; intros cur.
  - by destruct cur.
  - cbn [Str.lower Str.split_go]. rewrite isspace_lower_char.
    destruct (Str.isspace c).
    + rewrite fmap_app, <- (IH ""). by destruct cur.
    + rewrite <- IH. by rewrite lower_app.
Qed.

(** The tokens of the lowercased line are the lowercased tokens. *)
Lemma split_lower s : Str.split (Str.lower s) = Str.lower <$> Str.split s.
Proof. apply (split_go_lower ""). Qed.

Lemma lower_fixed t :
  all_chars (λ c, Ascii.eqb (Str.lower_char c) c) t = true → Str.lower t = t.
Proof.
  induction t as [|c t IH]; [done|]. cbn [all_chars Str.lower].
  intros [->%Ascii.eqb_eq Ht]%andb_prop. by rewrite IH.
Qed.

Lemma lower_all_fixed s :
  all_chars (λ c, Ascii.eqb (Str.lower_char c) c) (Str.lower s) = true.
Proof.
  induction s as [|c s IH]; [done|]. cbn [Str.lower all_chars].
  by rewrite lower_char_idem, Ascii.eqb_refl.
Qed.

Lemma rstripped_join ws : Forall is_token ws → rstripped (Str.join " " ws) = true.
Proof.
  assert (∀ w, is_token w → rstripped w = true) as Htok.
  { intros w [_ Hw]. induction w as [|c w IH]; [done|].
    cbn [all_chars] in Hw. apply andb_prop in Hw as [Hc Hw].
    destruct w; [done | by apply IH]. }
  induction 1 as [|w ws Hw Hws IH]; [done|].
  destruct ws as [|w' ws]; [by apply Htok|].
  change (Str.join " " (w :: w' :: ws))
    with (w +:+ " " +:+ Str.join " " (w' :: ws)).
  rewrite !rstripped_app.
  destruct (Str.join " " (w' :: ws)) eqn:E; [|done].
  exfalso. apply Forall_cons in Hws as [[Hne _] _].
  destruct ws; cbn in E; [done|]. by destruct w'.
Qed.

End MoreStrFacts.

(** ** More on the removal of BPE markers *)

Section BpeFacts.

Lemma bpe_prefix_before c x s :
  String.prefix "@@ " (String c x) = false →
  String.prefix "@@ " (String c (x +:+ "@@ " +:+ s)) = false.
Proof.
  assert (∀ t, String.prefix "" t = true) as Hnil by (by intros []).
  change ("@@ " +:+ s) with (String "@" (String "@" (String " " s))).
  destruct x as [|c2 [|c3 x]]; rewrite ?app_cons, ?app_nil_l;
    cbn [String.prefix]; rewrite ?Hnil;
    repeat (destruct (ascii_dec _ _) as [<-|]; try done).
Qed.

(** The leftmost marker is the one removed. *)
Lemma bpe_leftmost x s :
  Str.occurs "@@ " x = false →
  Re.sub "@@ " "" (x +:+ "@@ " +:+ s) = x +:+ Re.sub "@@ " "" s.
Proof.
  induction x as [|c x IH]; intros Hx.
  - apply (sub_match "@" "@ " "").
  - rewrite (occurs_cons "@" "@ ") in Hx. apply orb_false_elim in Hx as [Hp Ho].
    rewrite !(app_cons c x), (sub_nomatch "@" "@ " ""), IH; [done..|].
    by apply bpe_prefix_before.
Qed.

Lemma bpe_join pieces :
  Forall (λ piece, Str.occurs "@@ " piece = false) pieces →
  Re.sub "@@ " "" (Str.join "@@ " pieces) = cat pieces.
Proof.
  induction 1 as [|piece pieces Hp Hps IH]; [done|].
  destruct pieces as [|piece' pieces].
  - cbn [Str.join cat foldr]. by rewrite app_nil_r, (sub_absent "@" "@ ").
  - change (Str.join "@@ " (piece :: piece' :: pieces))
      with (piece +:+ "@@ " +:+ Str.join "@@ " (piece' :: pieces)).
    by rewrite bpe_leftmost, IH.
Qed.

(** Removing markers leaves the last character of a stripped line. *)
Lemma bpe_rstripped s :
  rstripped s = true → rstripped (Re.sub "@@ " "" s) = true.
Proof.
  enough (s ≠ "" → rstripped s = true →
          Re.sub "@@ " "" s ≠ "" ∧ rstripped (Re.sub "@@ " "" s) = true) as H.
  { destruct s; [done|]. intros Hs. by apply H. }
  induction s as [|s IH|c s Hp IH] using (sub_ind "@" "@ "); [done|..].
  - intros _. rewrite (sub_match "@" "@ " ""), app_nil_l, !rstripped_app.
    destruct s as [|c s]; [done|]. intros Hs. by apply IH.
  - intros _ Hs. rewrite (sub_nomatch "@" "@ " "") by done.
    destruct s as [|c' s]; [done|]. destruct IH as [Hne Hr]; [done..|].
    split; [done|]. by destruct (Re.sub "@@ " "" (String c' s)).
Qed.

End BpeFacts.

(** ** [process_line] *)

(** X1.  White space at the end of a line, the line terminator included,
    does not count: a line and the same line followed by blanks are
    normalised alike. *)
Theorem process_line_trailing_blank (cmd_args : Args.t) (line w re_bpe : string)
    (detok : detokenizer) (d : gmap string string) :
  blank w = true →
  process_line cmd_args (line +:+ w) re_bpe detok d
  = process_line cmd_args line re_bpe detok d.
Proof. intros Hw. unfold process_line. by rewrite rstrip_app_blank. Qed.

(** The line terminator and a carriage return make no difference. *)
Lemma process_line_trailing_blank_witness :
  process_line Sample.args ("a house" +:+ String "013" nl) "@@ " Sample.spaced ∅
  = process_line Sample.args "a house" "@@ " Sample.spaced ∅.
Proof.
  apply (process_line_trailing_blank Sample.args "a house" (String "013" nl)).
  reflexivity.
Defined.

(** X2.  With [--del_bpe] (and neither case option nor detokenizer) a line
    made of pieces separated by the marker "@@ " comes back as the pieces
    put together, when no piece holds a marker of its own and the line does
    not end in white space. *)
Theorem del_bpe_rejoins_pieces (cmd_args : Args.t) (pieces : list string)
    (detok : detokenizer) (d : gmap string string) :
  Args.del_bpe cmd_args = true →
  Args.lc cmd_args = false →
  Str.truthy_opt (Args.truecase cmd_args) = false →
  Str.truthy (Args.detok cmd_args) = false →
  Forall (λ piece, Str.occurs "@@ " piece = false) pieces →
  rstripped (Str.join "@@ " pieces) = true →
  process_line cmd_args (Str.join "@@ " pieces) "@@ " detok d
  = inr (Re.sub "&apos;" "'" (cat pieces)).
Proof.
  intros Hbpe Hlc Htc Hdetok Hpieces Hline.
  rewrite process_line_normalize. unfold normalize, before_detok.
  by rewrite Hbpe, Hlc, Htc, Hdetok, rstrip_id, bpe_join.
Qed.

(** "tok@@ en" becomes "token". *)
Lemma del_bpe_rejoins_pieces_witness :
  process_line Sample2.args_bpe "tok@@ en" "@@ " Sample.spaced ∅ = inr "token".
Proof.
  apply (del_bpe_rejoins_pieces Sample2.args_bpe ["tok"; "en"]);
    try reflexivity.
  repeat constructor.
Defined.

(** X3.  With [--lc] and no detokenizer the normalised line is in lower
    case: lowercasing it again changes nothing, BPE removal or not. *)
Theorem lc_output_is_lowercase (cmd_args : Args.t) (line : string)
    (detok : detokenizer) (d : gmap string string) :
  Args.lc cmd_args = true →
  Str.truthy (Args.detok cmd_args) = false →
  ∃ out, process_line cmd_args line "@@ " detok d = inr out ∧ Str.lower out = out.
Proof.
  intros Hlc Hdetok. eexists. split; [apply process_line_normalize|].
  unfold normalize, before_detok. rewrite Hlc, Hdetok.
  apply lower_fixed, (all_chars_sub "&" "apos;"); [done|].
  destruct (Args.del_bpe cmd_args); [|apply lower_all_fixed].
  apply (all_chars_sub "@" "@ "); [done | apply lower_all_fixed].
Qed.

(** "A@@ B&apos;S" gives "ab's". *)
Lemma lc_output_is_lowercase_witness :
  ∃ out, process_line Sample2.args_lc "A@@ B&apos;S" "@@ " Sample.spaced ∅ = inr out
         ∧ Str.lower out = out.
Proof.
  apply (lc_output_is_lowercase Sample2.args_lc "A@@ B&apos;S"); reflexivity.
Defined.

(** X4.  Without a detokenizer the normalised line never ends in white
    space, provided the truecaser is not run or its mapping has the shape
    the loader gives it: stripping the result again changes nothing. *)
Theorem output_has_no_trailing_space (cmd_args : Args.t) (line : string)
    (detok : detokenizer) (d : gmap string string) :
  Str.truthy (Args.detok cmd_args) = false →
  Args.lc cmd_args = true ∨ Str.truthy_opt (Args.truecase cmd_args) = false
    ∨ loaded_model d →
  ∃ out, process_line cmd_args line "@@ " detok d = inr out ∧ Str.rstrip out = out.
Proof.
  intros Hdetok Hcase. eexists. split; [apply process_line_normalize|].
  unfold normalize, before_detok. rewrite Hdetok.
  apply rstrip_id, apos_rstripped.
  assert (rstripped
            (if Args.lc cmd_args then Str.lower (Str.rstrip line)
             else if Str.truthy_opt (Args.truecase cmd_args)
                  then Str.join " " (substitute d <$> Str.split (Str.rstrip line))
                  else Str.rstrip line) = true) as Hcased.
  { destruct (Args.lc cmd_args).
    - by rewrite rstripped_lower, rstripped_rstrip.
    - destruct (Str.truthy_opt (Args.truecase cmd_args));
        [|apply rstripped_rstrip].
      destruct Hcase as [?|[?|Hd]]; [done..|]. apply rstripped_join.
      apply Forall_fmap. eapply Forall_impl; [apply split_tokens|].
      intros w Hw. unfold substitute. cbn [compose].
      destruct (d !! Str.lower w) as [v|] eqn:Hv; [|done].
      by apply (Hd _ _ Hv). }
  destruct (Args.del_bpe cmd_args); [by apply bpe_rstripped | done].
Qed.

(** Blanks and a marker at the end of the line. *)
Lemma output_has_no_trailing_space_witness :
  ∃ out, process_line Sample2.args_bpe ("a@@ b @@  " +:+ nl) "@@ " Sample.spaced ∅
         = inr out
         ∧ Str.rstrip out = out.
Proof.
  apply (output_has_no_trailing_space Sample2.args_bpe ("a@@ b @@  " +:+ nl)).
  - reflexivity.
  - right. left. reflexivity.
Defined.

(** X5.  With [--lc] two lines that differ in case only are normalised
    alike, so that a hypothesis equal to the reference up to case is
    printed with the marker. *)
Theorem lc_ignores_case (cmd_args : Args.t) (line line' : string)
    (detok : detokenizer) (d : gmap string string) :
  Args.lc cmd_args = true →
  Str.lower line = Str.lower line' →
  process_line cmd_args line "@@ " detok d = process_line cmd_args line' "@@ " detok d
  ∧ ∀ hyp_num ref_line hyp_line,
      process_line cmd_args line "@@ " detok d = inr ref_line →
      process_line cmd_args line' "@@ " detok d = inr hyp_line →
      print_hyp hyp_num ref_line hyp_line
      = Io ("MT" +:+ pretty hyp_num +:+ ": :-) " +:+ hyp_line +:+ nl) (inr ()).
Proof.
  intros Hlc Hlow.
  assert (process_line cmd_args line "@@ " detok d
          = process_line cmd_args line' "@@ " detok d) as Heq.
  { unfold process_line. rewrite Hlc.
    by rewrite <- !rstrip_lower, Hlow. }
  split; [done|]. intros hyp_num ref_line hyp_line Href Hhyp.
  rewrite Heq, Hhyp in Href. injection Href as <-.
  rewrite print_hyp_eq. unfold hyp_text. by rewrite bool_decide_true.
Qed.

(** "The Cat" and "the cat". *)
Lemma lc_ignores_case_witness :
  process_line Sample.args_lc "The Cat" "@@ " Sample.spaced ∅
  = process_line Sample.args_lc "the cat" "@@ " Sample.spaced ∅.
Proof.
  apply (lc_ignores_case Sample.args_lc "The Cat" "the cat"); reflexivity.
Defined.

(** X6.  Without [--del_bpe], when the detokenizer is on or the truecaser
    is run, the layout of the white space in a line does not matter: two
    lines with the same tokens are normalised alike. *)
Theorem layout_does_not_matter (cmd_args : Args.t) (line line' re_bpe : string)
    (detok : detokenizer) (d : gmap string string) :
  Args.del_bpe cmd_args = false →
  Str.truthy (Args.detok cmd_args) = true
    ∨ (Args.lc cmd_args = false ∧ Str.truthy_opt (Args.truecase cmd_args) = true) →
  Str.split line = Str.split line' →
  process_line cmd_args line re_bpe detok d
  = process_line cmd_args line' re_bpe detok d.
Proof.
  intros Hbpe Hcase Htokens. rewrite !process_line_normalize. f_equal.
  unfold normalize, before_detok. rewrite Hbpe.
  destruct (Args.lc cmd_args) eqn:Hlc.
  - destruct Hcase as [->|[? _]]; [|done].
    by rewrite !split_lower, !split_rstrip, Htokens.
  - destruct (Str.truthy_opt (Args.truecase cmd_args)).
    + by rewrite !split_rstrip, Htokens.
    + destruct Hcase as [->|[_ ?]]; [|done].
      by rewrite !split_rstrip, Htokens.
Qed.

(** Tabs and runs of spaces. *)
Lemma layout_does_not_matter_witness :
  process_line Sample2.args_tc ("  the" +:+ String "009" "  NATO  ") "@@ " Sample.spaced
    {[ "nato" := "nato" ]}
  = process_line Sample2.args_tc "the NATO" "@@ " Sample.spaced {[ "nato" := "nato" ]}.
Proof.
  apply (layout_does_not_matter Sample2.args_tc
           ("  the" +:+ String "009" "  NATO  ") "the NATO").
  - reflexivity.
  - left. reflexivity.
  - reflexivity.
Defined.

(** ** The truecase model and its use *)

Section ModelFacts.

Lemma parse_truecase_lines_inv lines d0 d :
  parse_truecase_lines lines d0 = inr d →
  d = foldl (λ d w, <[Str.lower w := w]> d) d0 (first_tokens lines).
Proof.
  revert d0. induction lines as [|line lines IH]; intros d0.
  - by intros [= <-].
  - cbn [parse_truecase_lines first_tokens omap list_omap].
    destruct (Str.split line) as [|w ws]; [done|]. cbn. apply IH.
Qed.

Lemma first_tokens_are_tokens lines : Forall is_token (first_tokens lines).
Proof.
  induction lines as [|line lines IH]; [constructor|].
  cbn [first_tokens omap list_omap].
  pose proof (split_tokens line) as Hline.
  destruct (Str.split line) as [|w ws]; [done|]. cbn.
  apply Forall_cons in Hline as [Hw _]. by constructor.
Qed.

Lemma loaded_model_fold (ws : list string) d0 :
  Forall is_token ws → loaded_model d0 →
  loaded_model (foldl (λ d w, <[Str.lower w := w]> d) d0 ws).
Proof.
  intros Hws. revert d0. induction Hws as [|w ws Hw _ IH]; intros d0 Hd0; [done|].
  cbn [foldl]. apply IH. intros k v.
  destruct (decide (Str.lower w = k)) as [<-|Hk].
  - rewrite lookup_insert_eq. by intros [= <-].
  - rewrite lookup_insert_ne by done. apply Hd0.
Qed.

Lemma loaded_model_tokens d line :
  loaded_model d → Forall is_token (substitute d <$> Str.split line).
Proof.
  intros Hd. apply Forall_fmap. eapply Forall_impl; [apply split_tokens|].
  intros w Hw. unfold substitute. cbn [compose].
  destruct (d !! Str.lower w) as [v|] eqn:Hv; [|done]. by apply (Hd _ _ Hv).
Qed.

Lemma substitute_idem d w :
  loaded_model d → substitute d (substitute d w) = substitute d w.
Proof.
  intros Hd. unfold substitute.
  destruct (d !! Str.lower w) as [v|] eqn:Hv; cbn [from_option id].
  - destruct (Hd _ _ Hv) as [Hlow _]. by rewrite Hlow, Hv.
  - by rewrite Hv.
Qed.

End ModelFacts.

(** X7.  Every mapping the loader returns has lowercase keys, binds a key to
    a value that lowercases to it, and holds tokens only (no empty value,
    no white space in a value). *)
Theorem loader_builds_well_formed_model
    (fs : filesystem) (path : option string) (d : gmap string string) :
  parse_truecase_model fs path = inr d →
  loaded_model d ∧ ∀ k v, d !! k = Some v → Str.lower k = k.
Proof.
  intros Hrun.
  assert (loaded_model d) as Hd.
  { unfold parse_truecase_model in Hrun.
    destruct (open fs path) as [e|lines]; [done|]. cbn in Hrun.
    apply parse_truecase_lines_inv in Hrun as ->.
    apply loaded_model_fold; [apply first_tokens_are_tokens|].
    intros k v. by rewrite lookup_empty. }
  split; [done|]. intros k v Hv. destruct (Hd _ _ Hv) as [<- _].
  apply lower_idem.
Qed.

(** The sample model. *)
Lemma loader_builds_well_formed_model_witness :
  loaded_model {[ "nato" := "nato" ]}.
Proof.
  apply (loader_builds_well_formed_model Sample.fs (Some "model.txt")).
  by vm_compute.
Defined.

(** X8.  Truecasing with a mapping of the shape the loader gives is
    idempotent: a truecased line is left as it is by a second pass. *)
Theorem truecase_line_idempotent (line : string) (d : gmap string string) :
  loaded_model d →
  ∃ cased, truecase_line line d = inr cased ∧ truecase_line cased d = inr cased.
Proof.
  intros Hd. eexists. split; [apply truecase_line_eq|].
  rewrite truecase_line_eq. f_equal.
  rewrite split_join by by apply loaded_model_tokens.
  rewrite <- list_fmap_compose. f_equal. apply list_fmap_ext.
  intros _ w _. cbn [compose]. by apply substitute_idem.
Qed.

(** "the Nato alliance" with the mapping of "nato" to "NATO". *)
Lemma truecase_line_idempotent_witness :
  ∃ cased, truecase_line "the  Nato alliance" {[ "nato" := "NATO" ]} = inr cased
           ∧ truecase_line cased {[ "nato" := "NATO" ]} = inr cased.
Proof.
  apply (truecase_line_idempotent "the  Nato alliance").
  intros k v [<- <-]%lookup_singleton_Some. split; [reflexivity|].
  split; [discriminate | reflexivity].
Defined.

(** X9.  Loading a model and truecasing with it restores the casing of the
    model: a token that equals a first token of the model up to case is
    replaced by that first token, the last one in the file when several
    lines lowercase alike. *)
Theorem truecase_restores_model_casing
    (fs : filesystem) (path : string) (lines : list string)
    (d : gmap string string) (earlier later : list string) (w x : string) :
  fs !! path = Some lines →
  parse_truecase_model fs (Some path) = inr d →
  first_tokens lines = earlier ++ w :: later →
  Forall (λ v, Str.lower v ≠ Str.lower w) later →
  is_token x →
  Str.lower x = Str.lower w →
  truecase_line x d = inr w.
Proof.
  intros Hfs Hrun Hfirst Hlater Hx Hlow.
  unfold parse_truecase_model, open in Hrun. rewrite Hfs in Hrun. cbn in Hrun.
  apply parse_truecase_lines_inv in Hrun as ->.
  rewrite truecase_line_eq, split_token by done. cbn [fmap list_fmap Str.join].
  f_equal. unfold substitute. rewrite lookup_fold_insert, Hfirst, Hlow.
  rewrite filter_app, filter_cons_True by done.
  assert (filter (λ v, Str.lower v = Str.lower w) later = []) as ->.
  { clear -Hlater. induction Hlater as [|v later Hv _ IH]; [done|].
    by rewrite filter_cons_False. }
  by rewrite last_snoc.
Qed.

(** The sample model has "NATO" first and "nato" last: "Nato" becomes
    "nato". *)
Lemma truecase_restores_model_casing_witness :
  ∃ d, parse_truecase_model Sample.fs (Some "model.txt") = inr d
       ∧ truecase_line "Nato" d = inr "nato".
Proof.
  exists {[ "nato" := "nato" ]}.
  assert (parse_truecase_model Sample.fs (Some "model.txt")
          = inr {[ "nato" := "nato" ]}) as Hrun by (by vm_compute).
  split; [exact Hrun|].
  apply (truecase_restores_model_casing Sample.fs "model.txt" Sample.model
           {[ "nato" := "nato" ]} ["NATO"] [] "nato" "Nato").
  - reflexivity.
  - exact Hrun.
  - reflexivity.
  - constructor.
  - split; [discriminate | reflexivity].
  - reflexivity.
Defined.

(** ** [process_lines] *)

Section MoreRunFacts.

Lemma group_text_src cmd_args translate detok d src src' ref hyps i :
  line_at src i = line_at src' i →
  group_text cmd_args translate detok d src ref hyps i
  = group_text cmd_args translate detok d src' ref hyps i.
Proof. intros H. unfold group_text. by rewrite H. Qed.

Lemma group_count_take cmd_args (src : file) :
  group_count cmd_args (take (Z.to_nat (Args.head cmd_args)) src)
  = group_count cmd_args src.
Proof. unfold group_count. rewrite length_take. lia. Qed.

Lemma group_count_le_head cmd_args (src : file) :
  (group_count cmd_args src ≤ Z.to_nat (Args.head cmd_args))%nat.
Proof. unfold group_count. lia. Qed.

Lemma process_lines_loop_unbound_count cmd_args mt d src ref hyps :
  process_lines_loop cmd_args "@@ " mt None d src 0 ref hyps
  = Io "" (if bool_decide (group_count cmd_args src = 0%nat)
           then inr () else inl UnboundLocalError).
Proof.
  rewrite process_lines_loop_unbound. unfold group_count.
  destruct src as [|src_line src].
  - by rewrite bool_decide_true by (cbn [length]; lia).
  - case_bool_decide.
    + by rewrite bool_decide_true by (cbn [length]; lia).
    + by rewrite bool_decide_false by (cbn [length]; lia).
Qed.

End MoreRunFacts.


(** X11.  Only the first [--head] lines of the source count: the run is the
    same on the source cut after them, and with a cap of zero or less it is
    the run on an empty source. *)
Theorem process_lines_head_cap
    (pkgs : packages) (cmd_args : Args.t)
    (src : file) (ref : option file) (hyps : list file) (d : gmap string string) :
  process_lines pkgs cmd_args src ref hyps d
  = process_lines pkgs cmd_args (take (Z.to_nat (Args.head cmd_args)) src) ref hyps d
  ∧ (Args.head cmd_args ≤ 0 →
     process_lines pkgs cmd_args src ref hyps d
     = process_lines pkgs cmd_args [] ref hyps d).
Proof.
  assert (process_lines pkgs cmd_args src ref hyps d
          = process_lines pkgs cmd_args (take (Z.to_nat (Args.head cmd_args)) src)
              ref hyps d) as Htake.
  { destruct (Str.truthy_opt (Args.google cmd_args)) eqn:Hg;
      [destruct (mtranslate pkgs) as [translate|] eqn:Hmt|].
    2: { unfold process_lines. by rewrite Hg, Hmt. }
    all: destruct (Str.truthy (Args.detok cmd_args)) eqn:Hd;
      [destruct (nltk pkgs) as [| |MosesDetokenizer] eqn:Hn|].
    all: try (unfold process_lines; rewrite Hg, Hd, ?Hmt, ?Hn;
              unfold mret, io_mret, io_ret; rewrite ?bind_value;
              by rewrite ?process_lines_loop_unbound_count, ?group_count_take).
    all: assert (Str.truthy_opt (Args.google cmd_args) = true
                 → is_Some (mtranslate pkgs))
           as Hready by (intros ?; first [congruence | by rewrite Hmt]).
    all: rewrite !(process_lines_eq _ _ MosesDetokenizer), group_count_take by done.
    all: f_equal; f_equal; apply list_fmap_ext; intros j i Hi;
      apply lookup_seq in Hi as [-> Hi]; apply group_text_src;
      unfold line_at; rewrite lookup_take_lt; [done|];
      pose proof (group_count_le_head cmd_args src); lia. }
  split; [done|]. intros Hhead. rewrite Htake.
  by replace (Z.to_nat (Args.head cmd_args)) with 0%nat by lia.
Qed.

(** ** [main] *)

Section MainFacts.

Lemma open_hyps_eq fs hyp_files hyps :
  open_hyps fs hyp_files hyps
  = Io (cat ((λ _, hyp_error) <$> filter (λ path, fs !! path = None) hyp_files))
       (inr (hyps ++ omap (fs !!.) hyp_files)).
Proof.
  revert hyps. induction hyp_files as [|hyp_file hyp_files IH]; intros hyps.
  - cbn. by rewrite (right_id_L [] (++)).
  - cbn [open_hyps open omap list_omap].
    destruct (fs !! hyp_file) as [hyp|] eqn:Hhyp.
    + rewrite filter_cons_False by (by rewrite Hhyp).
      by rewrite IH, <- (assoc_L (++)).
    + rewrite filter_cons_True by done. unfold print, write.
      rewrite bind_value, IH. cbn [stdout outcome fmap list_fmap].
      by rewrite cat_cons.
Qed.

End MainFacts.

(** X12.  A hypothesis file that cannot be opened is passed over: [main]
    prints one line for it (the same for every file, without its name) and
    goes on; the files that open are kept in the order of the command line,
    so the ordinals printed later count the opened files only. *)
Theorem open_hyps_skips_missing_files
    (fs : filesystem) (hyp_files : list string) (hyps : list file) :
  open_hyps fs hyp_files hyps
  = Io (cat ((λ _, "Error: Could not open hyp_file" +:+ nl)
             <$> filter (λ path, fs !! path = None) hyp_files))
       (inr (hyps ++ omap (fs !!.) hyp_files))
  ∧ (length (omap (fs !!.) hyp_files)
     + length (filter (λ path, fs !! path = None) hyp_files)
     = length hyp_files)%nat.
Proof.
  split; [apply open_hyps_eq|].
  induction hyp_files as [|hyp_file hyp_files IH]; [done|].
  cbn [omap list_omap]. destruct (fs !! hyp_file) as [hyp|] eqn:Hhyp.
  - rewrite filter_cons_False by (by rewrite Hhyp). cbn [length]. lia.
  - rewrite filter_cons_True by done. cbn [length]. lia.
Qed.

(** X13.  When the source file, the model and the reference (if one is
    given) open, [main] prints the lines for the hypothesis files it could
    not open and then runs [process_lines] on the namespace, the open
    files (those hypothesis files that exist, in order) and the loaded
    mapping: its output follows and its outcome is the outcome of [main]. *)
Theorem main_opens_then_melds
    (fs : filesystem) (pkgs : packages) (cli : Cli.t)
    (src : file) (d : gmap string string) :
  fs !! Args.src (parse_args cli) = Some src →
  parse_truecase_model fs (Args.truecase (parse_args cli)) = inr d →
  (∀ path, Args.ref (parse_args cli) = Some path → is_Some (fs !! path)) →
  let cmd_args := parse_args cli in
  let run := process_lines pkgs cmd_args src (Args.ref cmd_args ≫= (fs !!.))
               (omap (fs !!.) (Args.hyps cmd_args)) d in
  main fs pkgs cli
  = Io (cat ((λ _, hyp_error) <$> filter (λ path, fs !! path = None)
                                    (Args.hyps cmd_args))
        +:+ stdout run)
       (outcome run).
Proof.
  intros Hsrc Hmodel Href cmd_args run. subst run cmd_args.
  unfold main. cbv zeta. unfold isfile. rewrite bool_decide_true by (by rewrite Hsrc).
  unfold mret, io_mret, io_ret, lift. rewrite bind_value, Hmodel, bind_value.
  assert (open fs (Some (Args.src (parse_args cli))) = inr src) as ->
    by (unfold open; by rewrite Hsrc).
  rewrite bind_value. cbn [stdout outcome]. rewrite !app_nil_l.
  assert (match Args.ref (parse_args cli) with
          | Some path =>
              Io "" (open fs (Some path)) ≫= λ ref, Io "" (inr (Some ref))
          | None => Io "" (inr None)
          end = Io "" (inr (Args.ref (parse_args cli) ≫= (fs !!.)))) as ->.
  { destruct (Args.ref (parse_args cli)) as [path|] eqn:Hpath; [|done].
    destruct (Href path eq_refl) as [ref Hfs]. unfold open. cbn. by rewrite Hfs. }
  rewrite bind_value, open_hyps_eq, bind_value. cbn [stdout outcome].
  by rewrite app_nil_l.
Qed.

(** The sample files: "nowhere.txt" is passed over, "hyp.txt" is MT1. *)
Lemma main_opens_then_melds_witness :
  main Sample.fs Sample.pkgs Sample2.cli
  = Io (hyp_error
        +:+ stdout (process_lines Sample.pkgs (parse_args Sample2.cli)
                      ["ein Haus" +:+ nl; "zwei" +:+ nl; "drei" +:+ nl]
                      (Some ["a house" +:+ nl])
                      [["a house" +:+ nl; "two" +:+ nl]] {[ "nato" := "nato" ]}))
       (outcome (process_lines Sample.pkgs (parse_args Sample2.cli)
                   ["ein Haus" +:+ nl; "zwei" +:+ nl; "drei" +:+ nl]
                   (Some ["a house" +:+ nl])
                   [["a house" +:+ nl; "two" +:+ nl]] {[ "nato" := "nato" ]})).
Proof.
  pose proof (main_opens_then_melds Sample.fs Sample.pkgs Sample2.cli
                ["ein Haus" +:+ nl; "zwei" +:+ nl; "drei" +:+ nl]
                {[ "nato" := "nato" ]}) as H.
  cbv zeta in H. rewrite H.
  - reflexivity.
  - reflexivity.
  - by vm_compute.
  - intros path [= <-]. eexists. reflexivity.
Defined.



(** X15.  The loader looks at the first token of a line and at nothing
    else: two model files whose lines agree on their first tokens (a blank
    line having none) give the same result, the same mapping or the same
    [IndexError]. *)
Theorem loader_reads_first_tokens_only
    (fs : filesystem) (path path' : string) (lines lines' : list string) :
  fs !! path = Some lines →
  fs !! path' = Some lines' →
  (λ line, head (Str.split line)) <$> lines
  = (λ line, head (Str.split line)) <$> lines' →
  parse_truecase_model fs (Some path) = parse_truecase_model fs (Some path').
Proof.
  intros Hfs Hfs' Hfirst. unfold parse_truecase_model, open.
  rewrite Hfs, Hfs'. cbn [mbind result_mbind result_bind].
  generalize (∅ : gmap string string). clear Hfs Hfs'. revert lines' Hfirst.
  induction lines as [|line lines IH]; intros [|line' lines'] Hfirst d0;
    try done.
  cbn [fmap list_fmap] in Hfirst. injection Hfirst as Hline Hrest.
  cbn [parse_truecase_lines]. rewrite <- !head_lookup, Hline.
  destruct (head (Str.split line')); [by apply IH | done].
Qed.

(** The counts that follow the word in a model file do not matter. *)
Lemma loader_reads_first_tokens_only_witness :
  parse_truecase_model
    {[ "a" := ["NATO (3/4) nato (1/4)" +:+ nl]; "b" := [" NATO" +:+ nl] ]} (Some "a")
  = parse_truecase_model
      {[ "a" := ["NATO (3/4) nato (1/4)" +:+ nl]; "b" := [" NATO" +:+ nl] ]} (Some "b").
Proof.
  apply (loader_reads_first_tokens_only _ "a" "b"
           ["NATO (3/4) nato (1/4)" +:+ nl] [" NATO" +:+ nl]); reflexivity.
Defined.
